(** * wlc-coordinator-server: combat session orchestration

    A shallow embedding of the combat registry ([CombatManager]), the
    lobby-facing service ([LobbyService]), the storage lookups of
    [DatabaseService] and the preset-cooking pipeline, with the properties
    the specification states about them.

    Conventions.
    - An [async] function is a function returning [Result]: [Ok v] is a
      promise resolved with [v], [Throw e] a promise rejected with [e]
      (or, for a synchronous function, an exception).
    - A [Map], and an object that the code only reads as a dictionary,
      are [gmap]s. An object the code fills by assignments [o[k] = v] is
      a [Js.object]: its own properties and its prototype.
    - Arrays that are shared by reference live in a store of arrays
      ([arrays]) and are named by their location.
    - Arrow functions that are stored and called later are records of
      their captured variables, run by an interpreter function. *)

From Stdlib Require Import Ascii String.
From stdpp Require Import gmap strings list fin_maps pretty relations.

Local Open Scope string_scope.

(** ** Errors and results *)

(** [ErrorModels] (BadRequest, NotFound, InternalServerError), the error of
    the driver's ObjectId constructor, and the ReferenceError JavaScript
    raises when a [const] binding is read before its initialisation. *)
Inductive Error :=
  | BadRequest (message : string)
  | NotFound (message : string)
  | InternalServerError
  | BSONError
  | ReferenceError.

Inductive Result (A : Type) :=
  | Ok (value : A)
  | Throw (e : Error).
Arguments Ok {A} value.
Arguments Throw {A} e.

Global Instance Result_ret : MRet Result := @Ok.
Global Instance Result_bind : MBind Result :=
  λ A B f r, match r with Ok a => f a | Throw e => Throw e end.

Global Instance Error_eq_dec : EqDecision Error.
Proof. solve_decision. Defined.

(** ** JavaScript primitives used by the services *)

Module Js.

(** 2^53: from this value on, adding 1 to a Number no longer changes it. *)
Definition MAX_EXACT : N := 9007199254740992.

(** [n + 1] on a Number holding a non-negative integer [n <= 2^53]:
    exact below 2^53, and 2^53 + 1 rounds back to 2^53. *)
Definition succ (n : N) : N :=
  if (n <? MAX_EXACT)%N then (n + 1)%N else n.

(** [Number.prototype.toString] on a non-negative integer below 1e21:
    its decimal digits. *)
Definition toString (n : N) : string := pretty n.

(** [Array.prototype.indexOf]: the first index holding [x], or -1. *)
Fixpoint indexOf (l : list string) (x : string) : Z :=
  match l with
  | [] => (-1)%Z
  | y :: l' =>
      if decide (y = x) then 0%Z
      else let i := indexOf l' x in
           if decide (i = (-1)%Z) then (-1)%Z else (i + 1)%Z
  end.

(** [Array.prototype.splice(start, deleteCount)] for [0 <= start]:
    the array without the [deleteCount] elements from [start] on. *)
Definition splice (l : list string) (start : Z) (deleteCount : nat)
  : list string :=
  take (Z.to_nat start) l ++ drop (Z.to_nat start + deleteCount) l.

(** [Array.prototype.push]. *)
Definition push (l : list string) (x : string) : list string := l ++ [x].

(** The keys a [for (const k in array)] loop visits: the indices of the
    array, as strings, in ascending order. *)
Definition for_in_keys {A} (l : list A) : list string :=
  (λ i, toString (N.of_nat i)) <$> seq 0 (length l).

(** An object created by the literal [{}] and filled by assignments: its
    own properties, and the object that an assignment has made its
    prototype ([None]: the prototype is still [Object.prototype]). *)
Record object (V : Type) := { own : gmap string V; proto : option V }.
Arguments own {V} _.
Arguments proto {V} _.

(** The literal [{}]. *)
Global Instance object_empty {V} : Empty (object V) :=
  {| own := ∅; proto := None |}.

(** [o[k] = v] on such an object, for a value [v] that is itself an
    object. The key "__proto__" names the accessor that [Object.prototype]
    provides: the assignment replaces the prototype of [o] and creates no
    own property. Any other key becomes, or overwrites, an own property
    (the values assigned are plain data objects, so that a property
    inherited from a replaced prototype does not stand in the way). *)
Definition assign {V} (k : string) (v : V) (o : object V) : object V :=
  if decide (k = "__proto__") then {| own := own o; proto := Some v |}
  else {| own := <[k := v]> (own o); proto := proto o |}.

(** What the assignments made so far have left under a key: the own
    property of that name, or, for "__proto__", the replaced prototype. *)
Definition assigned {V} (k : string) (o : object V) : option V :=
  if decide (k = "__proto__") then proto o else own o !! k.

End Js.

(** ** ServerModels *)

Record GameComponentDecoration := {
  deco_name : string;
  deco_sprite : string;
  deco_description : string
}.

(** [ControlInfo]: ControlledByPlayer | ControlledByAI | ControlledByGameLogic. *)
Inductive ControlInfo :=
  | ControlledByPlayer (id : option string)
  | ControlledByAI (id : string)
  | ControlledByGameLogic.

(** ['dlc' | 'embedded']. *)
Inductive Source := dlc | embedded.

Global Instance Source_eq_dec : EqDecision Source.
Proof. solve_decision. Defined.

(** [CharacterPreset]; the four [Array<unknown>] fields are kept as lists of
    opaque item names. *)
Record CharacterPreset := {
  descriptor : string;
  decorations : GameComponentDecoration;
  attributes : gmap string Z;
  inventory : list string;
  weaponry : list string;
  spellbook : list string;
  status_effects : list string
}.

Record EntityPreset := { source : Source; name : string }.

Record FieldPawn := { entity_preset : EntityPreset; owner : ControlInfo }.

Record GamePreset := {
  field_pawns : Js.object FieldPawn;
  custom_entities : Js.object CharacterPreset
}.

(** ** Stored documents *)

(** One element of [CombatClass.field], as [createNewCombatPreset] takes it
    and [cookPresetFromDB] reads it. *)
Record PresetPawn := {
  pawn_path : string;
  pawn_square : string;
  pawn_source : Source;
  pawn_controlled_by : ControlInfo
}.

Record CombatClass := { field : list PresetPawn }.

(** [PlayerClass] and [LobbyClass] of LobbyModel.ts (the creation date is
    left out). *)
Record PlayerClass := {
  userId : string;
  nickname : string;
  characterId : option string
}.

Record LobbyClass := {
  lobby_name : string;
  lobby_gm_id : string;
  lobby_players : list PlayerClass;
  relatedPresets : list string
}.

(** Of [UserClass] the services read the handle only. *)
Record UserClass := { handle : string }.

(** A stored character is read by the services through its descriptor. *)
Record CharacterClass := { character_descriptor : string }.

(** An ObjectId, once constructed, is its 24-digit lower-case hexadecimal
    form. *)
Definition ObjectId := string.

(** The document store: one collection per model, keyed by [_id]. *)
Record Storage := {
  lobbies : gmap string LobbyClass;
  users : gmap string UserClass;
  characters : gmap string CharacterClass;
  combat_presets : gmap string CombatClass
}.

(** ** The driver's ObjectId constructor *)

(** [new Types.ObjectId(s)] belongs to the database driver, not to this
    repository: it either builds an identifier from the string or throws.
    The services are written over any such constructor. *)
Class ObjectIdCtor := new_ObjectId : string → option ObjectId.

Definition is_hex_digit (c : ascii) : bool :=
  let n := nat_of_ascii c in
  ((48 <=? n)%nat && (n <=? 57)%nat) || ((97 <=? n)%nat && (n <=? 102)%nat)
  || ((65 <=? n)%nat && (n <=? 70)%nat).

Definition to_lower (c : ascii) : ascii :=
  let n := nat_of_ascii c in
  if (65 <=? n)%nat && (n <=? 90)%nat then ascii_of_nat (n + 32) else c.

Fixpoint map_string (f : ascii → ascii) (s : string) : string :=
  match s with
  | EmptyString => EmptyString
  | String c s' => String (f c) (map_string f s')
  end.

Fixpoint all_string (f : ascii → bool) (s : string) : bool :=
  match s with
  | EmptyString => true
  | String c s' => f c && all_string f s'
  end.

(** The constructor as the driver documents it for string arguments: a
    string of 24 hexadecimal digits is accepted, in either case; other
    strings make it throw. (Older drivers also take any 12-byte string;
    no statement below uses a string of that length.) Used for the concrete
    scenarios only: the general statements hold for every constructor. *)
Definition ObjectId_hex24 : ObjectIdCtor := λ s,
  if (String.length s =? 24)%nat && all_string is_hex_digit s
  then Some (map_string to_lower s) else None.

(** ** DatabaseService *)

Module DatabaseService.
Section with_driver.
Context `{!ObjectIdCtor}.

(** [new Types.ObjectId(s)] as an expression that may throw. *)
Definition Types_ObjectId (s : string) : Result ObjectId :=
  match new_ObjectId s with
  | Some _id => Ok _id
  | None => Throw BSONError
  end.

(** [Model.findOne({ _id })]: the document, or null. *)
Definition findOne {D} (collection : gmap string D) (_id : ObjectId)
  : option D := collection !! _id.

Definition getLobby (db : Storage) (lobbyId : string)
  : Result (option LobbyClass) :=
  if decide (lobbyId = "") then Ok None
  else _id ← Types_ObjectId lobbyId; Ok (findOne (lobbies db) _id).

Definition getUser (db : Storage) (userId : string)
  : Result (option UserClass) :=
  _id ← Types_ObjectId userId; Ok (findOne (users db) _id).

Definition getCharacter (db : Storage) (characterId : string)
  : Result (option CharacterClass) :=
  _id ← Types_ObjectId characterId; Ok (findOne (characters db) _id).

Definition getCombatPreset (db : Storage) (combatPresetId : string)
  : Result (option CombatClass) :=
  _id ← Types_ObjectId combatPresetId; Ok (findOne (combat_presets db) _id).

End with_driver.

(** The immediately-invoked check of [createNewCombatPreset]: walk the
    pawns, remembering the squares seen so far. *)
Fixpoint checkSquares (field : list PresetPawn) (occupiedSquares : list string)
  : Result unit :=
  match field with
  | [] => Ok ()
  | pawn :: rest =>
      if bool_decide (pawn_square pawn ∈ occupiedSquares)
      then Throw (BadRequest "Multiple pawns on the same square")
      else checkSquares rest (occupiedSquares ++ [pawn_square pawn])
  end.

Definition set_combat_presets (f : gmap string CombatClass → gmap string CombatClass)
  (db : Storage) : Storage :=
  {| lobbies := lobbies db; users := users db; characters := characters db;
     combat_presets := f (combat_presets db) |}.

(** [createNewCombatPreset]. The new document's identifier [_id] and
    whether [document.save] succeeds ([saved]) are decided by the store. *)
Definition createNewCombatPreset (field : list PresetPawn)
  (_id : ObjectId) (saved : bool) (db : Storage) : Result ObjectId * Storage :=
  match checkSquares field [] with
  | Throw e => (Throw e, db)
  | Ok _ =>
      if saved
      then (Ok _id, set_combat_presets (insert _id {| field := field |}) db)
      else (Throw InternalServerError, db)
  end.

End DatabaseService.

(** Modelled from the spec: [DatabaseService.getEntity] is called by the
    cooking functions but is not among the repository's sources. Section 6
    lists it with the lookups that return the definition, or null for an
    absent one, rather than throwing. *)
Class EntityLookup := getEntity : string → option CharacterPreset.

(** ** Preset cooking *)

Module CookPreset.
Section with_storage.
Context `{!ObjectIdCtor} `{!EntityLookup}.

Definition empty_preset : GamePreset :=
  {| field_pawns := ∅; custom_entities := ∅ |}.

(** The body shared by the two loops: write the pawn at its square, then
    resolve an embedded entity. *)
Definition cookPawn (square path : string) (source : Source)
  (controlled_by : ControlInfo) (result : GamePreset) : Result GamePreset :=
  let pawns :=
    Js.assign square
      {| entity_preset := {| source := source; name := path |};
         owner := controlled_by |} (field_pawns result) in
  if decide (source = embedded) then
    match getEntity path with
    | None => Throw (NotFound "Entity not found")
    | Some customEntity =>
        Ok {| field_pawns := pawns;
              custom_entities := Js.assign path customEntity (custom_entities result) |}
    end
  else Ok {| field_pawns := pawns; custom_entities := custom_entities result |}.

(** [for (const pawn of presetFromDB.field)]. *)
Fixpoint cookPawns (pawns : list PresetPawn) (result : GamePreset)
  : Result GamePreset :=
  match pawns with
  | [] => Ok result
  | pawn :: rest =>
      result' ← cookPawn (pawn_square pawn) (pawn_path pawn)
                  (pawn_source pawn) (pawn_controlled_by pawn) result;
      cookPawns rest result'
  end.

Definition cookPresetFromDB (db : Storage) (combatPreset : string)
  : Result (option GamePreset) :=
  presetFromDB ← DatabaseService.getCombatPreset db combatPreset;
  match presetFromDB with
  | None => Ok None
  | Some presetFromDB =>
      result ← cookPawns (field presetFromDB) empty_preset; Ok (Some result)
  end.

(** The inline pawn of a request: [{ path, source, controlledBy }]. *)
Record RequestPawn := {
  path : string;
  req_source : Source;
  controlledBy : ControlInfo
}.

(** The request payload: an object keyed by square. *)
Record RequestedPreset := { req_field : gmap string RequestPawn }.

(** [for (const [square, { path, source, controlledBy }] of entries)]. *)
Fixpoint cookEntries (entries : list (string * RequestPawn))
  (result : GamePreset) : Result GamePreset :=
  match entries with
  | [] => Ok result
  | (square, p) :: rest =>
      result' ← cookPawn square (path p) (req_source p) (controlledBy p) result;
      cookEntries rest result'
  end.

(** [Object.entries] lists each own key once; the outcome of the loop does
    not depend on the order of the listing ([cookPresetFromRequest_any_order]). *)
Definition cookPresetFromRequest (combatPreset : RequestedPreset)
  : Result GamePreset :=
  cookEntries (map_to_list (req_field combatPreset)) empty_preset.

End with_storage.

(** What the loops write at a square for a stored pawn and for a request
    entry. *)
Definition to_field_pawn (p : PresetPawn) : FieldPawn :=
  {| entity_preset := {| source := pawn_source p; name := pawn_path p |};
     owner := pawn_controlled_by p |}.

Definition request_field_pawn (p : RequestPawn) : FieldPawn :=
  {| entity_preset := {| source := req_source p; name := path p |};
     owner := controlledBy p |}.

(** The last pawn of the list that claims the square, if any. *)
Definition pawn_on (square : string) (pawns : list PresetPawn) : option PresetPawn :=
  last (filter (λ p, pawn_square p = square) pawns).

(** A request entry read as a stored pawn. *)
Definition entry_pawn (e : string * RequestPawn) : PresetPawn :=
  {| pawn_path := path e.2; pawn_square := e.1; pawn_source := req_source e.2;
     pawn_controlled_by := controlledBy e.2 |}.

End CookPreset.

(** ** Sessions, closures and the state shared by the services *)

(** Location of an array object in the store of arrays. *)
Definition loc := nat.

(** A socket.io connection, by identity. *)
Definition Socket := nat.

(** The arrow function passed as [onDeleted] by [LobbyService.createCombat]:
    it captures the array [combats] (by reference) and the binding
    [combatId], which is uninitialised ([None]) until
    [CombatManager.createCombat] has returned. *)
Record OnDeleted := { od_combats : loc; od_combatId : option string }.

(** The arrow function [removeSelf] of [CombatManager.createCombat]: it
    captures [combat_id] and [onDeleted]. *)
Record RemoveSelf := { rs_combat_id : string; rs_onDeleted : OnDeleted }.

(** A combat session. The first five fields are the constructor's
    arguments; the last three are its run-time state. *)
Record CombatConnection := {
  combatNickname : string;
  preset : GamePreset;
  removeSelf : RemoveSelf;
  gm_id : string;
  players : list string;
  connections : gmap string Socket;
  active : bool;
  roundCount : N
}.

(** What the services do to the outside, in order: console output, events
    sent to a socket, disconnections, and calls of [combat.handlePlayer]. *)
Inductive Effect :=
  | ConsoleLog (args : list string)
  | Emit (socket : Socket) (event : string)
  | Disconnect (socket : Socket)
  | HandlePlayer (combat_id user_id : string) (socket : Socket).

Global Instance Effect_eq_dec : EqDecision Effect.
Proof. solve_decision. Defined.

(** The two singletons and what they share: [combats] and [managedSoFar]
    belong to [CombatManager], [managingCombats] to [LobbyService]; the
    values of [managingCombats] are references into [arrays]. *)
Record World := {
  combats : gmap string CombatConnection;
  managedSoFar : N;
  managingCombats : gmap string loc;
  arrays : gmap loc (list string);
  effects : list Effect
}.

Definition initial : World :=
  {| combats := ∅; managedSoFar := 0; managingCombats := ∅;
     arrays := ∅; effects := [] |}.

Definition set_combats (f : gmap string CombatConnection → gmap string CombatConnection)
  (w : World) : World :=
  {| combats := f (combats w); managedSoFar := managedSoFar w;
     managingCombats := managingCombats w; arrays := arrays w;
     effects := effects w |}.

Definition set_managedSoFar (f : N → N) (w : World) : World :=
  {| combats := combats w; managedSoFar := f (managedSoFar w);
     managingCombats := managingCombats w; arrays := arrays w;
     effects := effects w |}.

Definition set_managingCombats (f : gmap string loc → gmap string loc)
  (w : World) : World :=
  {| combats := combats w; managedSoFar := managedSoFar w;
     managingCombats := f (managingCombats w); arrays := arrays w;
     effects := effects w |}.

Definition set_arrays (f : gmap loc (list string) → gmap loc (list string))
  (w : World) : World :=
  {| combats := combats w; managedSoFar := managedSoFar w;
     managingCombats := managingCombats w; arrays := f (arrays w);
     effects := effects w |}.

Definition emit (e : Effect) (w : World) : World :=
  {| combats := combats w; managedSoFar := managedSoFar w;
     managingCombats := managingCombats w; arrays := arrays w;
     effects := effects w ++ [e] |}.

Module CombatConnection.

(** Modelled from the spec: the class [CombatConnection] is imported by
    [CombatManager] but is not among the repository's sources. Section 8:
    a session just created has round count 0 and is not active; section
    4.3: no connection is attached yet. *)
Definition new (combatNickname : string) (preset : GamePreset)
  (removeSelf : RemoveSelf) (gm_id : string) (players : list string)
  : CombatConnection :=
  {| combatNickname := combatNickname; preset := preset;
     removeSelf := removeSelf; gm_id := gm_id; players := players;
     connections := ∅; active := false; roundCount := 0 |}.

(** Modelled from the spec: section 4.3, [isPlayerInCombat] tells whether
    the player currently has an attached connection. *)
Definition isPlayerInCombat (c : CombatConnection) (playerId : string) : bool :=
  bool_decide (is_Some (connections c !! playerId)).

(** Modelled from the spec: section 4.3, [handlePlayer] records the
    connection as the live channel of the player. *)
Definition handlePlayer (c : CombatConnection) (playerId : string)
  (socket : Socket) : CombatConnection :=
  {| combatNickname := combatNickname c; preset := preset c;
     removeSelf := removeSelf c; gm_id := gm_id c; players := players c;
     connections := <[playerId := socket]> (connections c);
     active := active c; roundCount := roundCount c |}.

(** Modelled from the spec: section 4.3, the [isActive] predicate. *)
Definition isActive (c : CombatConnection) : bool := active c.

(** Modelled from the spec: section 4.3, the [getRoundCount] accessor. *)
Definition getRoundCount (c : CombatConnection) : N := roundCount c.

(** Modelled from the spec: section 4.5, the session's connected-player
    set ([getPlayersInCombat] is called by [getLobbyInfo] but is not among
    the repository's sources). *)
Definition getPlayersInCombat (c : CombatConnection) : option (list string) :=
  Some (map_to_list (connections c)).*1.

(** The binding [combatId] captured by the session's [onDeleted] receives
    its value. *)
Definition bind_combatId (combatId : string) (c : CombatConnection)
  : CombatConnection :=
  {| combatNickname := combatNickname c; preset := preset c;
     removeSelf :=
       {| rs_combat_id := rs_combat_id (removeSelf c);
          rs_onDeleted :=
            {| od_combats := od_combats (rs_onDeleted (removeSelf c));
               od_combatId := Some combatId |} |};
     gm_id := gm_id c; players := players c;
     connections := connections c; active := active c;
     roundCount := roundCount c |}.

End CombatConnection.

(** ** CombatManager *)

Module CombatManager.

Definition get (w : World) (combat_id : string) : option CombatConnection :=
  combats w !! combat_id.

Definition createCombat (combatNickname : string) (preset : GamePreset)
  (gm_id : string) (players : list string) (onDeleted : OnDeleted)
  (w : World) : string * World :=
  let combat_id := Js.toString (managedSoFar w) in
  let w := set_managedSoFar Js.succ w in
  let removeSelf := {| rs_combat_id := combat_id; rs_onDeleted := onDeleted |} in
  let w := set_combats
             (insert combat_id
                (CombatConnection.new combatNickname preset removeSelf gm_id players))
             w in
  let w := emit (ConsoleLog ["Combat created"; combat_id]) w in
  (combat_id, w).

(** Running the body of the [onDeleted] arrow function: reading [combatId]
    before its initialisation throws; otherwise the first occurrence of the
    id, if any, is spliced out of the captured array. *)
Definition run_onDeleted (od : OnDeleted) (w : World) : Result World :=
  match od_combatId od with
  | None => Throw ReferenceError
  | Some combatId =>
      Ok (set_arrays
            (alter (λ combats,
                      let index := Js.indexOf combats combatId in
                      if decide (index ≠ (-1)%Z)
                      then Js.splice combats index 1
                      else combats)
                   (od_combats od))
            w)
  end.

(** Running the body of [removeSelf]: [this.combats.delete(combat_id)],
    then [onDeleted()]. The result is the state left behind, with the
    error if [onDeleted] threw. *)
Definition run_removeSelf (rs : RemoveSelf) (w : World) : World * option Error :=
  let w1 := set_combats (delete (rs_combat_id rs)) w in
  match run_onDeleted (rs_onDeleted rs) w1 with
  | Ok w2 => (w2, None)
  | Throw e => (w1, Some e)
  end.

End CombatManager.

(** ** AuthService *)

(** Modelled from the spec: [AuthService] is imported by [LobbyService]
    but is not among the repository's sources. Section 6:
    [verifyAccessToken] returns the subject's id, or throws on an invalid
    or expired token ([None]). *)
Class AuthService := verifyAccessToken : string → option string.

(** ** LobbyService *)

Record ActivePlayer := { ap_handle : string; ap_nickname : string }.

Record CombatInfo := {
  ci_nickname : string;
  ci_isActive : bool;
  ci_roundCount : N;
  ci_id : string;
  ci_activePlayers : list ActivePlayer
}.

Module LobbyService.

Definition getActiveCombats (w : World) (lobby_id : string) : list string :=
  match managingCombats w !! lobby_id with
  | Some combats => default [] (arrays w !! combats)
  | None => []
  end.

(** The first statement of [createCombat]:
    [this.managingCombats.set(lobby_id, this.managingCombats.get(lobby_id) || [])].
    An array is truthy, so an existing array is kept; otherwise a new empty
    array is allocated. *)
Definition ensure_combats (lobby_id : string) (w : World) : World :=
  match managingCombats w !! lobby_id with
  | Some combats => set_managingCombats (insert lobby_id combats) w
  | None =>
      let fresh_array := fresh (dom (arrays w)) in
      set_managingCombats (insert lobby_id fresh_array)
        (set_arrays (insert fresh_array []) w)
  end.

Definition createCombat (lobby_id combatNickname : string) (preset : GamePreset)
  (gm_id : string) (players : list string) (w : World)
  : option string * World :=
  let w := ensure_combats lobby_id w in
  match managingCombats w !! lobby_id with
  | Some combats =>
      let '(combatId, w) :=
        CombatManager.createCombat combatNickname preset gm_id players
          {| od_combats := combats; od_combatId := None |} w in
      (* const combatId = ... : the captured binding is initialised *)
      let w := set_combats (alter (CombatConnection.bind_combatId combatId) combatId) w in
      (* combats.push(combatId) *)
      let w := set_arrays (alter (λ l, Js.push l combatId) combats) w in
      (Some combatId, w)
  | None => (None, w)
  end.

Section with_auth.
Context `{!AuthService}.

Definition disconnectSocket (socket : Socket) (w : World) : World :=
  emit (Disconnect socket) w.

Definition manageSocket (socket : Socket) (combat_id userToken : string)
  (w : World) : World :=
  match CombatManager.get w combat_id with
  | None =>
      let w := emit (ConsoleLog ["Combat not found"]) w in
      disconnectSocket socket w
  | Some combat =>
      match verifyAccessToken userToken with
      | None =>
          let w := emit (Emit socket "invalid_token") w in
          let w := emit (ConsoleLog ["Error verifying token"]) w in
          disconnectSocket socket w
      | Some user_id =>
          if CombatConnection.isPlayerInCombat combat user_id then
            let w := emit (ConsoleLog ["Player is in combat"]) w in
            disconnectSocket socket w
          else
            (* combat.handlePlayer(user_id, socket) *)
            let w := emit (HandlePlayer combat_id user_id socket) w in
            set_combats
              (insert combat_id (CombatConnection.handlePlayer combat user_id socket))
              w
      end
  end.

End with_auth.

Section with_storage.
Context `{!ObjectIdCtor}.

(** One element of [activePlayers]. *)
Definition activePlayer (db : Storage) (lobby : LobbyClass) (playerId : string)
  : Result ActivePlayer :=
  userInDB ← DatabaseService.getUser db playerId;
  Ok {| ap_handle := from_option handle "" userInDB;
        ap_nickname :=
          from_option nickname ""
            (find (λ p, bool_decide (userId p = playerId)) (lobby_players lobby)) |}.

(** The loop of [getLobbyInfo] that fills [combatInfo], over the keys it
    visits. *)
Fixpoint combatInfoLoop (w : World) (db : Storage) (lobby : LobbyClass)
  (keys : list string) (combatInfo : list CombatInfo)
  : Result (list CombatInfo) :=
  match keys with
  | [] => Ok combatInfo
  | combat_id :: rest =>
      match CombatManager.get w combat_id with
      | Some combat =>
          let playerIds := default [] (CombatConnection.getPlayersInCombat combat) in
          activePlayers ← mapM (activePlayer db lobby) playerIds;
          combatInfoLoop w db lobby rest
            (combatInfo ++
               [{| ci_nickname := combatNickname combat;
                   ci_isActive := CombatConnection.isActive combat;
                   ci_roundCount :=
                     if CombatConnection.isActive combat
                     then CombatConnection.getRoundCount combat else 0%N;
                   ci_id := combat_id;
                   ci_activePlayers := activePlayers |}])
      | None => combatInfoLoop w db lobby rest combatInfo
      end
  end.

(** [getLobbyInfo] up to the end of its combat loop: the value of the
    [combats] field of the answer. The loop is
    [for (const combat_id in combats)]. *)
Definition getLobbyInfo_combats (w : World) (db : Storage) (lobby_id : string)
  : Result (list CombatInfo) :=
  lobby ← DatabaseService.getLobby db lobby_id;
  match lobby with
  | None => Ok []
  | Some lobby =>
      match managingCombats w !! lobby_id with
      | Some combats =>
          combatInfoLoop w db lobby
            (Js.for_in_keys (default [] (arrays w !! combats))) []
      | None => Ok []
      end
  end.

End with_storage.
End LobbyService.

(** What the guarded splice of the lobby callback does to its array, as a
    function of lists (used to state the lemmas about it). *)
Definition prune (combatId : string) (combats : list string) : list string :=
  let index := Js.indexOf combats combatId in
  if decide (index ≠ (-1)%Z) then Js.splice combats index 1 else combats.

(** ** Runs of the services *)

(** One call into the services: a lobby organiser creates a combat, a
    registered session invokes its removal callback, or a connection asks
    to join. *)
Inductive step `{!AuthService} : World → World → Prop :=
  | step_createCombat lobby_id combatNickname preset gm_id players w :
      step w (LobbyService.createCombat lobby_id combatNickname preset gm_id players w).2
  | step_removeSelf combat_id c w :
      combats w !! combat_id = Some c →
      step w (CombatManager.run_removeSelf (removeSelf c) w).1
  | step_manageSocket socket combat_id userToken w :
      step w (LobbyService.manageSocket socket combat_id userToken w).

Definition reachable `{!AuthService} (w : World) : Prop := rtc step initial w.

(** The registry and the lobby lists agree: every registered session was
    issued by the counter and carries the callback made for it
    ([cons_key]); every id listed in an array names a registered session
    whose callback captured that very array ([cons_listed]); no array
    lists an id twice ([cons_nodup]); every lobby's array exists
    ([cons_alloc]). *)
Record consistent (w : World) : Prop := {
  cons_key : ∀ id c, combats w !! id = Some c →
    (∃ n, (n < managedSoFar w)%N ∧ id = Js.toString n) ∧
    rs_combat_id (removeSelf c) = id ∧
    od_combatId (rs_onDeleted (removeSelf c)) = Some id;
  cons_listed : ∀ ℓ l id, arrays w !! ℓ = Some l → id ∈ l →
    ∃ c, combats w !! id = Some c ∧ od_combats (rs_onDeleted (removeSelf c)) = ℓ;
  cons_nodup : ∀ ℓ l, arrays w !! ℓ = Some l → NoDup l;
  cons_alloc : ∀ lobby_id ℓ, managingCombats w !! lobby_id = Some ℓ →
    is_Some (arrays w !! ℓ)
}.

(** ** Runs of the registry alone *)

(** A call on the registry: [createCombat], or the invocation of some
    removal callback. *)
Inductive RegistryCall :=
  | Create (combatNickname : string) (preset : GamePreset) (gm_id : string)
      (players : list string) (onDeleted : OnDeleted)
  | Remove (rs : RemoveSelf).

(** Run the calls in order; collect the identifiers [createCombat] returns. *)
Fixpoint run_registry (calls : list RegistryCall) (w : World)
  : list string * World :=
  match calls with
  | [] => ([], w)
  | Create combatNickname preset gm_id players onDeleted :: rest =>
      let '(combat_id, w) :=
        CombatManager.createCombat combatNickname preset gm_id players onDeleted w in
      let '(ids, w) := run_registry rest w in
      (combat_id :: ids, w)
  | Remove rs :: rest =>
      run_registry rest (CombatManager.run_removeSelf rs w).1
  end.

(** The number of [createCombat] calls among the calls. *)
Fixpoint creations (calls : list RegistryCall) : nat :=
  match calls with
  | [] => 0
  | Create _ _ _ _ _ :: rest => S (creations rest)
  | Remove _ :: rest => creations rest
  end.

(** Whether an effect is a call of [combat.handlePlayer]. *)
Definition is_HandlePlayer (e : Effect) : bool :=
  match e with HandlePlayer _ _ _ => true | _ => false end.

(** The session registered under [combat_id], if any, invokes its removal
    callback. *)
Definition session_ends (combat_id : string) (w : World) : World :=
  match CombatManager.get w combat_id with
  | Some c => (CombatManager.run_removeSelf (removeSelf c) w).1
  | None => w
  end.

(** ** Scenarios *)

Module Scenario.

(** An auth service that rejects every token, and one that knows the token
    of player [p1]. *)
Definition no_auth : AuthService := λ _, None.
Definition p1_auth : AuthService :=
  λ t, if decide (t = "token-p1") then Some "p1" else None.

(** An entity store holding the goblin only. *)
Definition goblin : CharacterPreset :=
  {| descriptor := "goblin";
     decorations := {| deco_name := "Goblin"; deco_sprite := "goblin.png";
                       deco_description := "" |};
     attributes := {["health" := 10%Z]};
     inventory := []; weaponry := []; spellbook := []; status_effects := [] |}.
Definition goblin_only : EntityLookup :=
  λ path, if decide (path = "goblin") then Some goblin else None.

Definition seed : GamePreset := {| field_pawns := ∅; custom_entities := ∅ |}.

(** Section 8: [createCombat("lobby1", "Boss Fight", seed, "gm1", ["p1","p2"])]. *)
Definition boss_fight : World :=
  (LobbyService.createCombat "lobby1" "Boss Fight" seed "gm1" ["p1"; "p2"] initial).2.

Definition boss_fight_session : CombatConnection :=
  CombatConnection.new "Boss Fight" seed
    {| rs_combat_id := "0";
       rs_onDeleted := {| od_combats := 0; od_combatId := Some "0" |} |}
    "gm1" ["p1"; "p2"].

(** Two creations on the registry with a removal in between. *)
Definition create_remove_create : list RegistryCall :=
  [ Create "first" seed "gm1" ["p1"] {| od_combats := 0; od_combatId := Some "0" |};
    Remove {| rs_combat_id := "0";
              rs_onDeleted := {| od_combats := 0; od_combatId := Some "0" |} |};
    Create "second" seed "gm1" ["p1"] {| od_combats := 0; od_combatId := Some "1" |} ].

(** Two stored pawns on square A1. *)
Definition goblin_A1 : PresetPawn :=
  {| pawn_path := "goblin"; pawn_square := "A1"; pawn_source := dlc;
     pawn_controlled_by := ControlledByAI "g1" |}.
Definition orc_A1 : PresetPawn :=
  {| pawn_path := "orc"; pawn_square := "A1"; pawn_source := dlc;
     pawn_controlled_by := ControlledByGameLogic |}.
(** A stored embedded pawn whose entity the store does not hold. *)
Definition wraith_B2 : PresetPawn :=
  {| pawn_path := "wraith"; pawn_square := "B2"; pawn_source := embedded;
     pawn_controlled_by := ControlledByAI "w1" |}.

Definition lobby_a : string := "65a0000000000000000000a1".
Definition lobby_b : string := "65a0000000000000000000b2".
Definition preset_shared : string := "65a0000000000000000000c3".
Definition preset_dangling : string := "65a0000000000000000000d4".

Definition a_lobby (name : string) : LobbyClass :=
  {| lobby_name := name; lobby_gm_id := "gm1"; lobby_players := [];
     relatedPresets := [] |}.

Definition storage : Storage :=
  {| lobbies := {[ lobby_a := a_lobby "A"; lobby_b := a_lobby "B" ]};
     users := ∅;
     characters := ∅;
     combat_presets :=
       {[ preset_shared := {| field := [goblin_A1; orc_A1] |};
          preset_dangling := {| field := [goblin_A1; wraith_B2] |} ]} |}.

(** A request with an embedded pawn whose entity the store does not hold. *)
Definition request_dangling : CookPreset.RequestedPreset :=
  {| CookPreset.req_field :=
       {[ "B2" := {| CookPreset.path := "wraith"; CookPreset.req_source := embedded;
                     CookPreset.controlledBy := ControlledByAI "w1" |} ]} |}.

(** Lobby A creates a combat, the combat ends, lobby A creates another. *)
Definition second_after_first_ended : World :=
  (LobbyService.createCombat lobby_a "Second" seed "gm1" ["p1"]
     (session_ends "0"
        (LobbyService.createCombat lobby_a "First" seed "gm1" ["p1"] initial).2)).2.

(** Lobby A creates a combat, then lobby B creates one. *)
Definition two_lobbies : World :=
  (LobbyService.createCombat lobby_b "Beta" seed "gm1" ["p2"]
     (LobbyService.createCombat lobby_a "Alpha" seed "gm1" ["p1"] initial).2).2.

End Scenario.

(** ** More of the services *)

(** The lobby index covers the registry: every registered session is
    listed in the array its callback captured ([idx_listed]), that array
    is some lobby's array ([idx_owned]), and no two lobbies share an array
    ([idx_inj]). *)
Record indexed (w : World) : Prop := {
  idx_listed : ∀ id c, combats w !! id = Some c →
    ∃ l, arrays w !! od_combats (rs_onDeleted (removeSelf c)) = Some l ∧ id ∈ l;
  idx_owned : ∀ id c, combats w !! id = Some c →
    ∃ lobby_id,
      managingCombats w !! lobby_id = Some (od_combats (rs_onDeleted (removeSelf c)));
  idx_inj : ∀ lobby1 lobby2 ℓ,
    managingCombats w !! lobby1 = Some ℓ → managingCombats w !! lobby2 = Some ℓ →
    lobby1 = lobby2
}.

(** Whether an effect is a notice: console output, or an event sent to
    the socket. *)
Definition is_notice (e : Effect) : bool :=
  match e with ConsoleLog _ | Emit _ _ => true | _ => false end.

Module CookFacts.
(** The pawn is embedded and the store holds its entity, or it is not
    embedded. *)
Definition resolves `{!EntityLookup} (p : PresetPawn) : Prop :=
  pawn_source p = embedded → is_Some (getEntity (pawn_path p)).

(** The pawn is embedded and refers to the entity named [k]. *)
Definition embeds (k : string) (p : PresetPawn) : Prop :=
  pawn_source p = embedded ∧ pawn_path p = k.

Global Instance resolves_dec `{!EntityLookup} p : Decision (resolves p).
Proof. unfold resolves. apply _. Defined.

Global Instance embeds_dec k p : Decision (embeds k p).
Proof. unfold embeds. apply _. Defined.

End CookFacts.

(** [s || fallback] on strings: the empty string is falsy. *)
Definition or_else (s fallback : string) : string :=
  if decide (s = "") then fallback else s.

(** The value of an optional string if it is truthy: present and not
    empty. *)
Definition truthy (s : option string) : option string :=
  match s with
  | Some s => if decide (s = "") then None else Some s
  | None => None
  end.

Module DatabaseUpdates.
Section with_driver.
Context `{!ObjectIdCtor}.

Definition set_lobbies (f : gmap string LobbyClass → gmap string LobbyClass)
  (db : Storage) : Storage :=
  {| lobbies := f (lobbies db); users := users db; characters := characters db;
     combat_presets := combat_presets db |}.

(** [createNewLobby]. As for [createNewCombatPreset], the new identifier
    [_id] and the success of [document.save] are decided by the store. *)
Definition createNewLobby (lobbyName gm_id : string) (_id : ObjectId)
  (saved : bool) (db : Storage) : Result ObjectId * Storage :=
  match DatabaseService.getUser db gm_id with
  | Throw e => (Throw e, db)
  | Ok None => (Throw (NotFound "User not found"), db)
  | Ok (Some gm) =>
      let lobby :=
        {| lobby_name := lobbyName; lobby_gm_id := gm_id;
           lobby_players :=
             [{| userId := gm_id; nickname := handle gm; characterId := None |}];
           relatedPresets := [] |} in
      if saved then (Ok _id, set_lobbies (insert _id lobby) db)
      else (Throw InternalServerError, db)
  end.

Definition set_players (players : list PlayerClass) (lobby : LobbyClass)
  : LobbyClass :=
  {| lobby_name := lobby_name lobby; lobby_gm_id := lobby_gm_id lobby;
     lobby_players := players; relatedPresets := relatedPresets lobby |}.

(** [addPlayerToLobby]: the player is pushed on the loaded document's
    list, and [updateOne] writes that list to the document with the
    lobby's [_id]. *)
Definition addPlayerToLobby (lobbyId userId nickname : string) (db : Storage)
  : Result unit * Storage :=
  match DatabaseService.getUser db userId with
  | Throw e => (Throw e, db)
  | Ok None => (Throw (NotFound "User not found"), db)
  | Ok (Some user) =>
      match DatabaseService.getLobby db lobbyId with
      | Throw e => (Throw e, db)
      | Ok None => (Throw (NotFound "Lobby not found"), db)
      | Ok (Some lobby) =>
          let players :=
            (lobby_players lobby
             ++ [{| userId := userId; nickname := nickname; characterId := None |}])%list in
          match DatabaseService.Types_ObjectId lobbyId with
          | Throw e => (Throw e, db)
          | Ok _id => (Ok (), set_lobbies (alter (set_players players) _id) db)
          end
      end
  end.

End with_driver.
End DatabaseUpdates.

(** The answer of [getLobbyInfo]. *)
Record PlayerCard := {
  pc_handle : string;
  pc_avatar : string;
  pc_userId : string;
  pc_nickname : string
}.

Record CharacterCard := { cc_name : string; cc_sprite : string }.

Record LobbyPlayer := { lp_player : PlayerCard; lp_character : option CharacterCard }.

Record ControlledEntity := { ce_name : string; ce_id : string }.

Record LobbyInfo := {
  li_name : string;
  li_lobbyId : string;
  li_combats : list CombatInfo;
  li_gm : string;
  li_players : list LobbyPlayer;
  li_layout : string;
  li_controlledEntity : option ControlledEntity
}.

Module LobbyViews.
Section with_storage.
Context `{!ObjectIdCtor} `{!EntityLookup}.

(** The local function [getCharacter] of [getLobbyInfo]. *)
Definition getCharacter (characterId : string) : option CharacterCard :=
  match getEntity characterId with
  | None => None
  | Some entity =>
      Some {| cc_name := or_else (deco_name (decorations entity))
                           (descriptor entity ++ ".name");
              cc_sprite := or_else (deco_sprite (decorations entity))
                             (descriptor entity ++ ".sprite") |}
  end.

(** [for (const p of lobby.players)]. *)
Fixpoint playersLoop (db : Storage) (roster : list PlayerClass)
  (players : list LobbyPlayer) : Result (list LobbyPlayer) :=
  match roster with
  | [] => Ok players
  | p :: rest =>
      let character :=
        match truthy (characterId p) with
        | Some characterId => getCharacter characterId
        | None => None
        end in
      player ← DatabaseService.getUser db (userId p);
      playersLoop db rest
        (players ++
           [{| lp_player := {| pc_handle := from_option handle "" player;
                               pc_avatar := "";
                               pc_userId := userId p;
                               pc_nickname := nickname p |};
               lp_character := character |}])
  end.

(** [getLobbyInfo(lobby_id, user, player)]; of [user] the function reads
    [_id], of [player] it reads [mainCharacter]. *)
Definition getLobbyInfo (w : World) (db : Storage) (lobby_id user_id : string)
  (mainCharacter : option string) : Result LobbyInfo :=
  lobby ← DatabaseService.getLobby db lobby_id;
  match lobby with
  | None =>
      Ok {| li_name := "Lobby not found"; li_lobbyId := lobby_id; li_combats := [];
            li_gm := ""; li_players := []; li_layout := "default";
            li_controlledEntity := None |}
  | Some lobby =>
      combatInfo ←
        match managingCombats w !! lobby_id with
        | Some combats =>
            LobbyService.combatInfoLoop w db lobby
              (Js.for_in_keys (default [] (arrays w !! combats))) []
        | None => Ok []
        end;
      let '(name, _id) :=
        match truthy mainCharacter with
        | Some mainCharacter =>
            match getEntity mainCharacter with
            | Some entity => (descriptor entity, Some mainCharacter)
            | None => ("Character not found", Some "")
            end
        | None => ("", None)
        end in
      players ← playersLoop db (lobby_players lobby) [];
      Ok {| li_name := lobby_name lobby; li_lobbyId := lobby_id;
            li_combats := combatInfo; li_gm := lobby_gm_id lobby;
            li_players := players;
            li_layout := if decide (user_id = lobby_gm_id lobby) then "gm" else "default";
            li_controlledEntity :=
              match truthy _id with
              | Some _id => Some {| ce_name := name; ce_id := _id |}
              | None => None
              end |}
  end.

End with_storage.

Section with_converter.
Context `{!ObjectIdCtor}.
(** [characterModelToInfo] of utils/characterConverters is not among the
    sources; [getMyCharacterInfo] only passes its result on. *)
Context {CharacterInfo : Type} (characterModelToInfo : CharacterClass → CharacterInfo).

(** [LobbyService.getMyCharacterInfo]. *)
Definition getMyCharacterInfo (db : Storage) (lobby_id player_id : string)
  : Result CharacterInfo :=
  lobby ← DatabaseService.getLobby db lobby_id;
  match lobby with
  | None => Throw (NotFound "Lobby not found")
  | Some lobby =>
      match find (λ p, bool_decide (userId p = player_id)) (lobby_players lobby) with
      | None => Throw (NotFound "Player not found")
      | Some player =>
          match truthy (characterId player) with
          | None => Throw (BadRequest "Player has no character")
          | Some characterId =>
              character ← DatabaseService.getCharacter db characterId;
              match character with
              | None => Throw (NotFound "Character not found")
              | Some character => Ok (characterModelToInfo character)
              end
          end
      end
  end.

End with_converter.
End LobbyViews.

(** What [getLobbyInfo] shows for one roster entry: the entry's user id and
    nickname, an empty avatar, the user's handle (empty if the user is not
    stored), and the character card of a truthy [characterId]. *)
Definition shows `{!ObjectIdCtor} `{!EntityLookup} (db : Storage)
  (p : PlayerClass) (card : LobbyPlayer) : Prop :=
  pc_userId (lp_player card) = userId p ∧
  pc_nickname (lp_player card) = nickname p ∧
  pc_avatar (lp_player card) = "" ∧
  (∃ user, DatabaseService.getUser db (userId p) = Ok user ∧
           pc_handle (lp_player card) = from_option handle "" user) ∧
  lp_character card = truthy (characterId p) ≫= LobbyViews.getCharacter.

(** ** More scenarios *)

Module Realm.

Definition ann : string := "65a0000000000000000000e5".
Definition bob : string := "65a0000000000000000000f6".
Definition camp : string := "65a000000000000000000a07".
Definition camp_reversed : string := "65a000000000000000000b08".
Definition hall : string := "65a000000000000000000c09".
Definition crypt : string := "65a000000000000000000d0a".
Definition burrow : string := "65a000000000000000000e0b".

(** The goblin is embedded and stored; the orc comes with a dlc. *)
Definition goblin_A1 : PresetPawn :=
  {| pawn_path := "goblin"; pawn_square := "A1"; pawn_source := embedded;
     pawn_controlled_by := ControlledByAI "g1" |}.
Definition orc_B2 : PresetPawn :=
  {| pawn_path := "orc"; pawn_square := "B2"; pawn_source := dlc;
     pawn_controlled_by := ControlledByGameLogic |}.

(** A stored goblin on the square named "__proto__", next to the orc. *)
Definition goblin_proto : PresetPawn :=
  {| pawn_path := "goblin"; pawn_square := "__proto__"; pawn_source := embedded;
     pawn_controlled_by := ControlledByAI "g1" |}.

(** Ann runs the hall and is its only player; the crypt lists a player
    whose user id is not an ObjectId. *)
Definition storage : Storage :=
  {| lobbies :=
       {[ hall := {| lobby_name := "Hall"; lobby_gm_id := ann;
                     lobby_players :=
                       [{| userId := ann; nickname := "Ann"; characterId := None |}];
                     relatedPresets := [] |};
          crypt := {| lobby_name := "Crypt"; lobby_gm_id := ann;
                      lobby_players :=
                        [{| userId := "p1"; nickname := "Pim";
                            characterId := Some "goblin" |}];
                      relatedPresets := [] |} ]};
     users := {[ ann := {| handle := "ann" |}; bob := {| handle := "bob" |} ]};
     characters := ∅;
     combat_presets :=
       {[ camp := {| field := [goblin_A1; orc_B2] |};
          camp_reversed := {| field := [orc_B2; goblin_A1] |};
          burrow := {| field := [goblin_proto; orc_B2] |} ]} |}.

(** Section 8: the request
    [{A1: {path: "goblin", source: "embedded", controlledBy: {type: "ai", id: "g1"}}}]. *)
Definition goblin_request : CookPreset.RequestedPreset :=
  {| CookPreset.req_field :=
       {[ "A1" := {| CookPreset.path := "goblin"; CookPreset.req_source := embedded;
                     CookPreset.controlledBy := ControlledByAI "g1" |} ]} |}.

Definition goblin_seed : GamePreset :=
  {| field_pawns :=
       {| Js.own :=
            {[ "A1" := {| entity_preset := {| source := embedded; name := "goblin" |};
                          owner := ControlledByAI "g1" |} ]};
          Js.proto := None |};
     custom_entities :=
       {| Js.own := {[ "goblin" := Scenario.goblin ]}; Js.proto := None |} |}.

Definition camp_seed : GamePreset :=
  {| field_pawns :=
       {| Js.own :=
            {[ "A1" := {| entity_preset := {| source := embedded; name := "goblin" |};
                          owner := ControlledByAI "g1" |};
               "B2" := {| entity_preset := {| source := dlc; name := "orc" |};
                          owner := ControlledByGameLogic |} ]};
          Js.proto := None |};
     custom_entities :=
       {| Js.own := {[ "goblin" := Scenario.goblin ]}; Js.proto := None |} |}.

(** The request [{"__proto__": {path: "goblin", source: "embedded", ...}}],
    as [JSON.parse] builds it: "__proto__" is an own key of the payload. *)
Definition proto_request : CookPreset.RequestedPreset :=
  {| CookPreset.req_field :=
       {[ "__proto__" :=
            {| CookPreset.path := "goblin"; CookPreset.req_source := embedded;
               CookPreset.controlledBy := ControlledByAI "g1" |} ]} |}.

(** What cooking makes of the burrow: the orc on its square, the goblin
    as prototype. *)
Definition burrow_seed : GamePreset :=
  {| field_pawns :=
       {| Js.own :=
            {[ "B2" := {| entity_preset := {| source := dlc; name := "orc" |};
                          owner := ControlledByGameLogic |} ]};
          Js.proto :=
            Some {| entity_preset := {| source := embedded; name := "goblin" |};
                    owner := ControlledByAI "g1" |} |};
     custom_entities :=
       {| Js.own := {[ "goblin" := Scenario.goblin ]}; Js.proto := None |} |}.

(** What cooking makes of the request: no own square, the goblin as
    prototype. *)
Definition proto_seed : GamePreset :=
  {| field_pawns :=
       {| Js.own := ∅;
          Js.proto :=
            Some {| entity_preset := {| source := embedded; name := "goblin" |};
                    owner := ControlledByAI "g1" |} |};
     custom_entities :=
       {| Js.own := {[ "goblin" := Scenario.goblin ]}; Js.proto := None |} |}.

(** The combat of section 8, then a second combat for the same lobby. *)
Definition second_fight : option string * World :=
  LobbyService.createCombat "lobby1" "Second" Scenario.seed "gm1" ["p1"]
    Scenario.boss_fight.

(** The combat of section 8 has ended. *)
Definition after_fight : World :=
  (CombatManager.run_removeSelf (removeSelf Scenario.boss_fight_session)
     Scenario.boss_fight).1.

(** ... and another combat was created for the lobby. *)
Definition next_fight : World :=
  (LobbyService.createCombat "lobby1" "Next" Scenario.seed "gm1" ["p1"] after_fight).2.

End Realm.

(** * Properties *)

(** ** JavaScript primitives *)

Section js_facts.

Lemma succ_ge (n : N) : (n ≤ Js.succ n)%N.
Proof. unfold Js.succ. destruct (N.ltb_spec n Js.MAX_EXACT); lia. Qed.

Lemma succ_exact (n : N) : (n < Js.MAX_EXACT)%N → Js.succ n = (n + 1)%N.
Proof. unfold Js.succ. intros Hn. destruct (N.ltb_spec n Js.MAX_EXACT); lia. Qed.

Lemma toString_inj (n m : N) : Js.toString n = Js.toString m → n = m.
Proof. unfold Js.toString. apply (inj pretty). Qed.

Lemma indexOf_ge (l : list string) (x : string) : (-1 ≤ Js.indexOf l x)%Z.
Proof. induction l as [|y l IH]; simpl; repeat case_decide; lia. Qed.

Lemma indexOf_absent (l : list string) (x : string) :
  Js.indexOf l x = (-1)%Z ↔ x ∉ l.
Proof.
  induction l as [|y l IH]; simpl.
  - split; [intros _; apply not_elem_of_nil | done].
  - pose proof (indexOf_ge l x) as Hge.
    rewrite not_elem_of_cons.
    destruct (decide (y = x)) as [->|Hne].
    + split; [lia | intros [? _]; done].
    + destruct (decide (Js.indexOf l x = (-1)%Z)) as [Heq|Hneq].
      * split; [intros _; split; [congruence | by apply IH] | done].
      * split; [lia | intros [_ Hx%IH]; done].
Qed.

Lemma prune_cons (x y : string) (l : list string) :
  prune x (y :: l) = if decide (y = x) then l else y :: prune x l.
Proof.
  unfold prune. cbn [Js.indexOf]. pose proof (indexOf_ge l x).
  destruct (decide (y = x)) as [->|Hne].
  - rewrite decide_True by lia. unfold Js.splice. simpl. by rewrite drop_0.
  - destruct (decide (Js.indexOf l x = (-1)%Z)) as [Heq|Hneq].
    + rewrite Heq. rewrite !decide_False by lia. done.
    + rewrite !decide_True by lia. unfold Js.splice.
      replace (Z.to_nat (Js.indexOf l x + 1)) with (S (Z.to_nat (Js.indexOf l x))) by lia.
      done.
Qed.

Lemma prune_absent (x : string) (l : list string) : x ∉ l → prune x l = l.
Proof.
  intros Hx%indexOf_absent. unfold prune. rewrite Hx. done.
Qed.

Lemma elem_of_prune (x y : string) (l : list string) : y ∈ prune x l → y ∈ l.
Proof.
  induction l as [|z l IH]; [done|].
  rewrite prune_cons. case_decide.
  - intros Hy. apply elem_of_cons. by right.
  - rewrite !elem_of_cons. intros [->|Hy]; [by left|right; by apply IH].
Qed.

Lemma prune_NoDup (x : string) (l : list string) : NoDup l → NoDup (prune x l).
Proof.
  induction 1 as [|z l Hz Hl IH]; [constructor|].
  rewrite prune_cons. case_decide; [done|].
  constructor; [|done]. intros Hin%elem_of_prune. done.
Qed.

Lemma prune_gone (x : string) (l : list string) : NoDup l → x ∉ prune x l.
Proof.
  induction 1 as [|z l Hz Hl IH]; [apply not_elem_of_nil|].
  rewrite prune_cons. case_decide; [by subst|].
  rewrite not_elem_of_cons. done.
Qed.

Lemma assigned_assign {V} (k k' : string) (v : V) (o : Js.object V) :
  Js.assigned k (Js.assign k' v o)
  = if decide (k = k') then Some v else Js.assigned k o.
Proof.
  unfold Js.assigned, Js.assign.
  destruct (decide (k = "__proto__")) as [->|Hk],
    (decide (k' = "__proto__")) as [->|Hk']; cbn.
  - by rewrite decide_True.
  - by rewrite decide_False.
  - by rewrite decide_False.
  - rewrite lookup_insert. by repeat case_decide.
Qed.

Lemma assigned_empty {V} (k : string) : Js.assigned k (∅ : Js.object V) = None.
Proof. unfold Js.assigned. by case_decide. Qed.

Lemma own_assign_proto {V} (k : string) (v : V) (o : Js.object V) :
  Js.own (Js.assign k v o) !! "__proto__" = Js.own o !! "__proto__".
Proof.
  unfold Js.assign. case_decide; [done|]. cbn. by rewrite lookup_insert_ne.
Qed.

Lemma assign_assign_ne {V} (k k' : string) (v v' : V) (o : Js.object V) :
  k ≠ k' →
  Js.assign k v (Js.assign k' v' o) = Js.assign k' v' (Js.assign k v o).
Proof.
  intros Hne. unfold Js.assign.
  destruct (decide (k = "__proto__")) as [->|Hk],
    (decide (k' = "__proto__")) as [->|Hk']; cbn; try done.
  by rewrite insert_insert_ne.
Qed.

Lemma own_lookup {V} (o : Js.object V) (k : string) :
  Js.own o !! "__proto__" = None →
  Js.own o !! k = if decide (k = "__proto__") then None else Js.assigned k o.
Proof.
  intros Ho. unfold Js.assigned. by case_decide as Hk; [rewrite Hk|].
Qed.

Lemma proto_assigned {V} (o : Js.object V) : Js.proto o = Js.assigned "__proto__" o.
Proof. done. Qed.

End js_facts.

(** ** The registry invariant *)

Section registry_invariant.
Context `{!AuthService}.

Lemma initial_consistent : consistent initial.
Proof. split; cbn; intros *; rewrite lookup_empty; done. Qed.

Lemma bind_lobby_consistent lobby_id ℓ w :
  consistent w → is_Some (arrays w !! ℓ) →
  consistent (set_managingCombats (insert lobby_id ℓ) w).
Proof.
  intros [Hkey Hlisted Hnodup Halloc] Hℓ. split; cbn; [done..|].
  intros lobby ℓ'. rewrite lookup_insert. case_decide; [|by apply Halloc].
  by intros [= <-].
Qed.

Lemma new_array_consistent w :
  consistent w →
  consistent (set_arrays (insert (fresh (dom (arrays w))) []) w).
Proof.
  intros [Hkey Hlisted Hnodup Halloc]. split; cbn; [done|..].
  - intros ℓ l id. rewrite lookup_insert. case_decide.
    + intros [= <-]. by intros ?%elem_of_nil.
    + apply Hlisted.
  - intros ℓ l. rewrite lookup_insert. case_decide.
    + intros [= <-]. constructor.
    + apply Hnodup.
  - intros lobby ℓ Hl. rewrite lookup_insert. case_decide; [by eexists|].
    by eapply Halloc.
Qed.

Lemma register_consistent nick preset gm ps ℓ w :
  consistent w → (managedSoFar w < Js.MAX_EXACT)%N →
  let id := Js.toString (managedSoFar w) in
  consistent
    (set_arrays (alter (λ l, Js.push l id) ℓ)
       (set_combats (alter (CombatConnection.bind_combatId id) id)
          (CombatManager.createCombat nick preset gm ps
             {| od_combats := ℓ; od_combatId := None |} w).2)).
Proof.
  intros [Hkey Hlisted Hnodup Halloc] Hsafe id.
  assert (Hfresh_id : combats w !! id = None).
  { destruct (combats w !! id) eqn:E; [|done].
    destruct (Hkey _ _ E) as [(n & Hn & Heq) _]. apply toString_inj in Heq. lia. }
  split; cbn; fold id.
  - intros id' c. rewrite succ_exact by done.
    rewrite lookup_alter. case_decide as Hid.
    + subst id'. rewrite lookup_insert_eq. cbn. intros [= <-]. cbn.
      split; [|done]. exists (managedSoFar w). split; [lia|done].
    + rewrite lookup_insert_ne by done. intros Hc.
      destruct (Hkey _ _ Hc) as [(n & Hn & Heq) ?]. split; [|done].
      exists n. split; [lia|done].
  - intros ℓ' l id'. rewrite lookup_alter. case_decide as Hℓ.
    + subst ℓ'. destruct (arrays w !! ℓ) as [l0|] eqn:Hl0; [|done].
      cbn. intros [= <-]. unfold Js.push. rewrite elem_of_app, list_elem_of_singleton.
      intros [Hin| ->].
      * destruct (Hlisted _ _ _ Hl0 Hin) as (c & Hc & Hcℓ).
        exists c. split; [|done].
        rewrite lookup_alter_ne, lookup_insert_ne; [done|congruence..].
      * rewrite lookup_alter_eq, lookup_insert_eq. cbn. eexists. split; [done|]. done.
    + intros Hl' Hin. destruct (Hlisted _ _ _ Hl' Hin) as (c & Hc & Hcℓ).
      exists c. split; [|done].
      rewrite lookup_alter_ne, lookup_insert_ne; [done|congruence..].
  - intros ℓ' l. rewrite lookup_alter. case_decide as Hℓ; [|apply Hnodup].
    subst ℓ'. destruct (arrays w !! ℓ) as [l0|] eqn:Hl0; [|done].
    cbn. intros [= <-]. unfold Js.push. apply NoDup_app. split_and!.
    + by eapply Hnodup.
    + intros x Hx ->%list_elem_of_singleton.
      destruct (Hlisted _ _ _ Hl0 Hx) as (c & Hc & _). congruence.
    + apply NoDup_singleton.
  - intros lobby ℓ' Hl. rewrite lookup_alter. case_decide; [|by eapply Halloc].
    subst. destruct (Halloc _ _ Hl) as [? ->]. by eexists.
Qed.


Lemma createCombat_consistent lobby_id nick preset gm ps w :
  consistent w → (managedSoFar w < Js.MAX_EXACT)%N →
  consistent (LobbyService.createCombat lobby_id nick preset gm ps w).2.
Proof.
  intros Hw Hsafe. unfold LobbyService.createCombat, LobbyService.ensure_combats.
  destruct (managingCombats w !! lobby_id) as [ℓ|] eqn:Hl.
  - cbn [managingCombats set_managingCombats]. rewrite lookup_insert_eq.
    apply (register_consistent nick preset gm ps ℓ
             (set_managingCombats (insert lobby_id ℓ) w)); [|done].
    apply bind_lobby_consistent; [done|]. by eapply cons_alloc.
  - cbn [managingCombats set_managingCombats set_arrays]. rewrite lookup_insert_eq.
    apply (register_consistent nick preset gm ps _
             (set_managingCombats (insert lobby_id _) (set_arrays _ w))); [|done].
    apply bind_lobby_consistent; [by apply new_array_consistent|].
    cbn. rewrite lookup_insert_eq. by eexists.
Qed.

Lemma run_onDeleted_prune ℓ id w :
  CombatManager.run_onDeleted {| od_combats := ℓ; od_combatId := Some id |} w
  = Ok (set_arrays (alter (prune id) ℓ) w).
Proof. done. Qed.

Lemma removeSelf_registered id c w :
  consistent w → combats w !! id = Some c →
  CombatManager.run_removeSelf (removeSelf c) w
  = (set_arrays (alter (prune id) (od_combats (rs_onDeleted (removeSelf c))))
       (set_combats (delete id) w), None).
Proof.
  intros Hw Hc. destruct (cons_key _ Hw _ _ Hc) as (_ & Hid & Hbound).
  unfold CombatManager.run_removeSelf.
  destruct (removeSelf c) as [id' [ℓ oid]]. cbn in *. subst. done.
Qed.

Lemma removeSelf_consistent id c w :
  consistent w → combats w !! id = Some c →
  consistent (CombatManager.run_removeSelf (removeSelf c) w).1.
Proof.
  intros Hw Hc. rewrite (removeSelf_registered id) by done. cbn [fst].
  destruct Hw as [Hkey Hlisted Hnodup Halloc].
  set (ℓc := od_combats (rs_onDeleted (removeSelf c))).
  split; cbn.
  - intros id' c'. rewrite lookup_delete. case_decide; [done|]. apply Hkey.
  - intros ℓ l id'. rewrite lookup_alter. case_decide as Hℓ.
    + subst ℓ. destruct (arrays w !! ℓc) as [l0|] eqn:Hl0; [|done].
      cbn. intros [= <-] Hin.
      assert (id' ≠ id).
      { intros ->. by eapply prune_gone, Hin; eauto. }
      apply elem_of_prune in Hin.
      destruct (Hlisted _ _ _ Hl0 Hin) as (c' & Hc' & Hℓ').
      exists c'. by rewrite lookup_delete_ne.
    + intros Hl Hin. destruct (Hlisted _ _ _ Hl Hin) as (c' & Hc' & Hℓ').
      exists c'. split; [|done]. rewrite lookup_delete_ne; [done|].
      intros <-. subst ℓc. congruence.
  - intros ℓ l. rewrite lookup_alter. case_decide as Hℓ; [|apply Hnodup].
    subst ℓ. destruct (arrays w !! ℓc) as [l0|] eqn:Hl0; [|done].
    cbn. intros [= <-]. by eapply prune_NoDup, Hnodup.
  - intros lobby ℓ Hl. rewrite lookup_alter. case_decide; [|by eapply Halloc].
    subst. destruct (Halloc _ _ Hl) as [? ->]. by eexists.
Qed.

Lemma manageSocket_consistent socket combat_id userToken w :
  consistent w → consistent (LobbyService.manageSocket socket combat_id userToken w).
Proof.
  intros Hw. unfold LobbyService.manageSocket, CombatManager.get.
  destruct (combats w !! combat_id) as [c|] eqn:Hc; [|by destruct Hw].
  destruct (verifyAccessToken userToken) as [user_id|]; [|by destruct Hw].
  destruct (CombatConnection.isPlayerInCombat c user_id); [by destruct Hw|].
  destruct Hw as [Hkey Hlisted Hnodup Halloc]. split; cbn; [| |done..].
  - intros id c'. rewrite lookup_insert. case_decide; [|apply Hkey].
    subst. intros [= <-]. cbn. by apply Hkey.
  - intros ℓ l id Hl Hin. destruct (Hlisted _ _ _ Hl Hin) as (c' & Hc' & Hℓ').
    destruct (decide (combat_id = id)) as [->|].
    + rewrite lookup_insert_eq. eexists. split; [done|]. cbn. congruence.
    + exists c'. by rewrite lookup_insert_ne.
Qed.

Lemma step_counter_mono w w' : step w w' → (managedSoFar w ≤ managedSoFar w')%N.
Proof.
  destruct 1 as [lobby_id nick preset gm ps w|id c w Hc|socket id tok w].
  - unfold LobbyService.createCombat, LobbyService.ensure_combats.
    destruct (managingCombats w !! lobby_id); cbn; rewrite lookup_insert_eq; cbn;
      apply succ_ge.
  - unfold CombatManager.run_removeSelf, CombatManager.run_onDeleted.
    destruct (od_combatId _); cbn; lia.
  - unfold LobbyService.manageSocket.
    repeat case_match; cbn; lia.
Qed.

Lemma step_consistent w w' :
  step w w' → (managedSoFar w < Js.MAX_EXACT)%N → consistent w → consistent w'.
Proof.
  destruct 1; intros Hsafe Hw.
  - by apply createCombat_consistent.
  - by eapply removeSelf_consistent.
  - by apply manageSocket_consistent.
Qed.

Lemma reachable_consistent w :
  reachable w → (managedSoFar w < Js.MAX_EXACT)%N → consistent w.
Proof.
  unfold reachable. intros Hsteps. revert w Hsteps.
  apply (rtc_ind_r (λ w, (managedSoFar w < Js.MAX_EXACT)%N → consistent w)).
  - intros _. apply initial_consistent.
  - intros w1 w2 _ Hstep IH Hsafe. pose proof (step_counter_mono _ _ Hstep).
    eapply step_consistent; [done|lia|apply IH; lia].
Qed.

(** Identifiers are not reused: an id the counter has passed and that is
    not registered stays unregistered. *)
Lemma step_retired w w' (n : N) :
  step w w' → (managedSoFar w' < Js.MAX_EXACT)%N → consistent w →
  (n < managedSoFar w)%N → combats w !! Js.toString n = None →
  combats w' !! Js.toString n = None.
Proof.
  intros Hstep Hsafe Hw Hn Hnone.
  destruct Hstep as [lobby_id nick preset gm ps w|id c w Hc|socket id tok w].
  - unfold LobbyService.createCombat, LobbyService.ensure_combats.
    assert (Js.toString (managedSoFar w) ≠ Js.toString n)
      by (intros Heq%toString_inj; lia).
    destruct (managingCombats w !! lobby_id); cbn; rewrite lookup_insert_eq; cbn;
      by rewrite lookup_alter_ne, lookup_insert_ne.
  - rewrite (removeSelf_registered id) by done. cbn.
    rewrite lookup_delete. by case_decide.
  - unfold LobbyService.manageSocket, CombatManager.get.
    destruct (combats w !! id) as [c|] eqn:Hc; [|done].
    destruct (verifyAccessToken tok) as [user_id|]; [|done].
    destruct (CombatConnection.isPlayerInCombat c user_id); [done|].
    cbn. rewrite lookup_insert_ne; [done|congruence].
Qed.

Lemma steps_retired w w' (n : N) :
  rtc step w w' → (managedSoFar w' < Js.MAX_EXACT)%N → reachable w →
  (n < managedSoFar w)%N → combats w !! Js.toString n = None →
  combats w' !! Js.toString n = None.
Proof.
  intros Hsteps. revert w' Hsteps.
  apply (rtc_ind_r (λ w', (managedSoFar w' < Js.MAX_EXACT)%N → reachable w →
                          (n < managedSoFar w)%N → combats w !! Js.toString n = None →
                          combats w' !! Js.toString n = None)); [done|].
  intros w1 w2 Hsteps Hstep IH Hsafe Hreach Hn Hnone.
  pose proof (step_counter_mono _ _ Hstep) as Hmono.
  assert (Hmono' : (managedSoFar w ≤ managedSoFar w1)%N).
  { clear -Hsteps. induction Hsteps as [|? ? ? Hs _ IH]; [lia|].
    pose proof (step_counter_mono _ _ Hs). lia. }
  eapply step_retired; [done|done| |lia|apply IH; [lia|done..]].
  apply reachable_consistent; [|lia]. unfold reachable in *. by etrans.
Qed.

(** The callback of a session that is no longer registered does nothing. *)
Lemma retired_callback_noop ℓ id w :
  consistent w → combats w !! id = None →
  CombatManager.run_removeSelf
    {| rs_combat_id := id;
       rs_onDeleted := {| od_combats := ℓ; od_combatId := Some id |} |} w
  = (w, None).
Proof.
  intros Hw Hnone. unfold CombatManager.run_removeSelf, CombatManager.run_onDeleted.
  cbn. fold (prune id). f_equal. destruct w as [cs n mc ar ef].
  unfold set_arrays, set_combats. cbn in *. f_equal.
  - by apply delete_id.
  - apply alter_id. intros l Hl. apply prune_absent. intros Hin.
    destruct (cons_listed _ Hw _ _ _ Hl Hin) as (c & Hc & _). cbn in Hc. congruence.
Qed.

(** Once a session's callback has run, running it again at any later time
    does nothing. *)
Lemma removed_callback_stays_noop w id c w2 :
  reachable w → combats w !! id = Some c →
  rtc step (CombatManager.run_removeSelf (removeSelf c) w).1 w2 →
  (managedSoFar w2 < Js.MAX_EXACT)%N →
  CombatManager.run_removeSelf (removeSelf c) w2 = (w2, None).
Proof.
  intros Hreach Hc Hsteps Hsafe.
  assert (Hstep1 : step w (CombatManager.run_removeSelf (removeSelf c) w).1)
    by by apply (step_removeSelf id).
  assert (Hreach1 : reachable (CombatManager.run_removeSelf (removeSelf c) w).1)
    by (unfold reachable in *; by eapply rtc_r).
  assert (Hmono : (managedSoFar (CombatManager.run_removeSelf (removeSelf c) w).1
                   ≤ managedSoFar w2)%N).
  { clear -Hsteps. induction Hsteps as [|? ? ? Hs _ IH]; [lia|].
    pose proof (step_counter_mono _ _ Hs). lia. }
  pose proof (step_counter_mono _ _ Hstep1) as Hmono1.
  assert (Hw : consistent w) by (apply reachable_consistent; [done|lia]).
  destruct (cons_key _ Hw _ _ Hc) as ((n & Hn & ->) & Hid & Hbound).
  assert (Hnone : combats w2 !! Js.toString n = None).
  { eapply steps_retired; [done|done|done|lia|].
    rewrite (removeSelf_registered (Js.toString n)) by done. cbn.
    apply lookup_delete_eq. }
  destruct (removeSelf c) as [id' [ℓ oid]]. cbn in Hid, Hbound. subst.
  apply retired_callback_noop; [|done].
  apply reachable_consistent; [|done]. unfold reachable in *. by etrans.
Qed.

End registry_invariant.

(** ** Preset cooking *)

Section cooking.
Import CookPreset.
Context `{!ObjectIdCtor} `{!EntityLookup}.

Lemma cookPawn_Throw square path source controlled_by result e :
  cookPawn square path source controlled_by result = Throw e →
  e = NotFound "Entity not found".
Proof.
  unfold cookPawn. case_decide; [|done].
  destruct (getEntity path); [done|]. by intros [= <-].
Qed.

Lemma cookPawn_Ok square path source controlled_by result result' :
  cookPawn square path source controlled_by result = Ok result' →
  field_pawns result'
  = Js.assign square
      {| entity_preset := {| source := source; name := path |};
         owner := controlled_by |} (field_pawns result).
Proof.
  unfold cookPawn. case_decide; [destruct (getEntity path); [|done]|];
    by intros [= <-].
Qed.

Lemma cookPawn_dangling square path controlled_by result :
  getEntity path = None →
  cookPawn square path embedded controlled_by result
  = Throw (NotFound "Entity not found").
Proof. intros Hpath. unfold cookPawn. by rewrite decide_True, Hpath. Qed.

Lemma cookEntries_cookPawns entries result :
  cookEntries entries result = cookPawns (entry_pawn <$> entries) result.
Proof.
  revert result. induction entries as [|[square p] entries IH]; intros result; [done|].
  cbn. destruct (cookPawn _ _ _ _ _); cbn; [apply IH|done].
Qed.

Lemma cookPawns_dangling pawns result pawn :
  pawn ∈ pawns → pawn_source pawn = embedded → getEntity (pawn_path pawn) = None →
  cookPawns pawns result = Throw (NotFound "Entity not found").
Proof.
  intros Hin Hsrc Hpath. revert result.
  induction pawns as [|p pawns IH]; intros result; [by apply elem_of_nil in Hin|].
  cbn. apply elem_of_cons in Hin as [<-|Hin].
  - rewrite Hsrc, cookPawn_dangling by done. done.
  - destruct (cookPawn _ _ _ _ _) as [result'|e] eqn:Hp; cbn; [by apply IH|].
    by apply cookPawn_Throw in Hp as ->.
Qed.

Lemma pawn_on_cons square p pawns :
  pawn_on square (p :: pawns)
  = match pawn_on square pawns with
    | Some q => Some q
    | None => if decide (pawn_square p = square) then Some p else None
    end.
Proof.
  unfold pawn_on. rewrite filter_cons. case_decide; [by rewrite last_cons|].
  by destruct (last _).
Qed.

Lemma cookPawns_outcome pawns result :
  cookPawns pawns result = Throw (NotFound "Entity not found") ∨
  ∃ seed, cookPawns pawns result = Ok seed ∧
    ∀ square, Js.assigned square (field_pawns seed)
              = match pawn_on square pawns with
                | Some p => Some (to_field_pawn p)
                | None => Js.assigned square (field_pawns result)
                end.
Proof.
  revert result. induction pawns as [|p pawns IH]; intros result.
  - right. by exists result.
  - cbn [cookPawns]. destruct (cookPawn _ _ _ _ _) as [result'|e] eqn:Hp; cbn.
    + destruct (IH result') as [->|(seed & -> & Hseed)]; [by left|right].
      exists seed. split; [done|]. intros square. rewrite Hseed, pawn_on_cons.
      destruct (pawn_on square pawns); [done|].
      rewrite (cookPawn_Ok _ _ _ _ _ _ Hp), assigned_assign.
      by repeat case_decide.
    + left. by apply cookPawn_Throw in Hp as ->.
Qed.

Lemma pawn_on_entries (l : list (string * RequestPawn)) square :
  NoDup l.*1 →
  to_field_pawn <$> pawn_on square (entry_pawn <$> l)
  = request_field_pawn <$> (list_to_map l : gmap string RequestPawn) !! square.
Proof.
  induction l as [|[k p] l IH]; intros Hnd; [done|].
  apply NoDup_cons in Hnd as [Hk Hnd]. specialize (IH Hnd).
  cbn [fmap list_fmap list_to_map foldr]. rewrite pawn_on_cons. cbn [entry_pawn pawn_square fst].
  destruct (decide (k = square)) as [->|Hne].
  - rewrite lookup_insert_eq. rewrite not_elem_of_list_to_map_1 in IH by done.
    apply fmap_None in IH. cbn in IH. rewrite IH. done.
  - rewrite lookup_insert_ne by done. rewrite <-IH. by destruct (pawn_on _ _).
Qed.


Lemma cookPawns_swap p q pawns result :
  pawn_square p ≠ pawn_square q →
  cookPawns (p :: q :: pawns) result = cookPawns (q :: p :: pawns) result.
Proof.
  intros Hsq. cbn [cookPawns]. unfold cookPawn.
  destruct (decide (pawn_source p = embedded)), (decide (pawn_source q = embedded));
    destruct (getEntity (pawn_path p)) as [ep|] eqn:Hp;
    destruct (getEntity (pawn_path q)) as [eq|] eqn:Hq; cbn;
    rewrite ?Hp, ?Hq; cbn; try done;
    rewrite (assign_assign_ne (pawn_square q) (pawn_square p)) by done; try done.
  destruct (decide (pawn_path p = pawn_path q)) as [Hpath|Hpath].
  - rewrite Hpath in Hp |- *. by simplify_eq.
  - by rewrite (assign_assign_ne (pawn_path q) (pawn_path p)).
Qed.

Lemma cookPawns_Permutation pawns pawns' result :
  pawns ≡ₚ pawns' → NoDup (pawn_square <$> pawns) →
  cookPawns pawns result = cookPawns pawns' result.
Proof.
  intros Hperm. revert result.
  induction Hperm as [|p l l' Hperm IH|p q l|l l' l'' Hperm IH Hperm' IH'];
    intros result Hnd.
  - done.
  - cbn. apply NoDup_cons in Hnd as [_ Hnd].
    destruct (cookPawn _ _ _ _ _); cbn; [by apply IH|done].
  - apply cookPawns_swap. cbn in Hnd. apply NoDup_cons in Hnd as [Hq _].
    intros Heq. apply Hq. rewrite Heq. apply elem_of_cons. by left.
  - rewrite IH by done. apply IH'. by rewrite <-Hperm.
Qed.

(** The outcome of cooking a request does not depend on the order in which
    the entries of the payload are listed. *)
Lemma cookPresetFromRequest_any_order (combatPreset : RequestedPreset)
  (entries : list (string * RequestPawn)) :
  entries ≡ₚ map_to_list (req_field combatPreset) →
  cookEntries entries empty_preset = cookPresetFromRequest combatPreset.
Proof.
  intros Hperm. unfold cookPresetFromRequest. rewrite !cookEntries_cookPawns.
  apply cookPawns_Permutation; [by rewrite Hperm|].
  rewrite Hperm. rewrite <-list_fmap_compose.
  apply (NoDup_fst_map_to_list (req_field combatPreset)).
Qed.

Lemma checkSquares_shared field occupiedSquares :
  NoDup occupiedSquares →
  ¬ NoDup (occupiedSquares ++ (pawn_square <$> field)) →
  DatabaseService.checkSquares field occupiedSquares
  = Throw (BadRequest "Multiple pawns on the same square").
Proof.
  revert occupiedSquares. induction field as [|pawn field IH]; intros occ Hocc Hdup.
  - cbn in Hdup. by rewrite app_nil_r in Hdup.
  - cbn. case_bool_decide as Hin; [done|].
    apply IH.
    + apply NoDup_app. split_and!; [done| |apply NoDup_singleton].
      by intros x Hx ->%list_elem_of_singleton.
    + by rewrite <-(assoc_L (++)).
Qed.

Lemma checkSquares_distinct field occupiedSquares :
  NoDup (occupiedSquares ++ (pawn_square <$> field)) →
  DatabaseService.checkSquares field occupiedSquares = Ok ().
Proof.
  revert occupiedSquares. induction field as [|pawn field IH]; intros occ Hnd; [done|].
  cbn. cbn in Hnd. rewrite bool_decide_eq_false_2.
  - apply IH. by rewrite <-(assoc_L (++)).
  - apply NoDup_app in Hnd as (_ & Hdisj & _). intros Hin.
    apply (Hdisj _ Hin). apply elem_of_cons. by left.
Qed.

(** C5. Let an entity be absent from storage ([getEntity] gives null).
    Importable mode: if the stored preset has a pawn with source
    "embedded" that refers to it, [cookPresetFromDB] fails with NotFound.
    Requested mode: if the payload has such a pawn, [cookPresetFromRequest]
    fails with NotFound. *)
Theorem dangling_embedded_pawn_NotFound (db : Storage) (combatPresetId : string)
  (presetFromDB : CombatClass) (combatPreset : RequestedPreset) (entity : string) :
  getEntity entity = None →
  (DatabaseService.getCombatPreset db combatPresetId = Ok (Some presetFromDB) →
   (∃ pawn, pawn ∈ field presetFromDB ∧ pawn_source pawn = embedded ∧
            pawn_path pawn = entity) →
   cookPresetFromDB db combatPresetId = Throw (NotFound "Entity not found")) ∧
  ((∃ square p, req_field combatPreset !! square = Some p ∧
                req_source p = embedded ∧ path p = entity) →
   cookPresetFromRequest combatPreset = Throw (NotFound "Entity not found")).
Proof.
  intros Habsent. split.
  - intros Hdb (pawn & Hin & Hsrc & <-). unfold cookPresetFromDB. rewrite Hdb. cbn.
    by rewrite (cookPawns_dangling _ _ pawn).
  - intros (square & p & Hp & Hsrc & <-). unfold cookPresetFromRequest.
    rewrite cookEntries_cookPawns.
    apply (cookPawns_dangling _ _ (entry_pawn (square, p))); [|done..].
    apply list_elem_of_fmap. exists (square, p). split; [done|].
    by apply elem_of_map_to_list.
Qed.

(** C2, amended. A pawn list in which two pawns claim one square is
    rejected with BadRequest when it is stored ([createNewCombatPreset]),
    and the store is left as it was. Cooking does not look at shared
    squares and raises no such error: on a stored preset with that list,
    [cookPresetFromDB] either fails with NotFound or returns a seed; a
    request is keyed by square, and [cookPresetFromRequest] either fails
    with NotFound or returns a seed. *)
Theorem shared_square_rejected_when_stored (pawns : list PresetPawn)
  (_id : ObjectId) (saved : bool) (db : Storage) (combatPresetId : string)
  (combatPreset : RequestedPreset) :
  ¬ NoDup (pawn_square <$> pawns) →
  DatabaseService.createNewCombatPreset pawns _id saved db
  = (Throw (BadRequest "Multiple pawns on the same square"), db) ∧
  (DatabaseService.getCombatPreset db combatPresetId = Ok (Some {| field := pawns |}) →
   cookPresetFromDB db combatPresetId = Throw (NotFound "Entity not found") ∨
   ∃ seed, cookPresetFromDB db combatPresetId = Ok (Some seed)) ∧
  (cookPresetFromRequest combatPreset = Throw (NotFound "Entity not found") ∨
   ∃ seed, cookPresetFromRequest combatPreset = Ok seed).
Proof.
  intros Hdup. split_and!.
  - unfold DatabaseService.createNewCombatPreset.
    by rewrite checkSquares_shared; [|constructor|].
  - intros Hdb. unfold cookPresetFromDB. rewrite Hdb. cbn.
    destruct (cookPawns_outcome pawns empty_preset) as [->|(seed & -> & _)];
      [by left|right].
    by exists seed.
  - unfold cookPresetFromRequest. rewrite cookEntries_cookPawns.
    destruct (cookPawns_outcome (entry_pawn <$> map_to_list (req_field combatPreset))
                empty_preset) as [->|(seed & -> & _)]; [by left|right].
    by exists seed.
Qed.

End cooking.

(** ** The registry and the lobby lists *)

Section registry.
Context `{!AuthService}.

(** C1. In a state the services can reach, let a session be registered
    under an id. Its removal callback first deletes the id from the
    registry's index, so that the cleanup hook runs in a state where [get]
    no longer finds the session; the callback completes without error, and
    afterwards [get] of the id is absent and no lobby's active-combat list
    contains the id. *)
Theorem removal_callback_unregisters (w : World) (id : string) (c : CombatConnection) :
  reachable w → (managedSoFar w < Js.MAX_EXACT)%N →
  combats w !! id = Some c →
  ∃ w',
    CombatManager.get (set_combats (delete id) w) id = None ∧
    CombatManager.run_onDeleted (rs_onDeleted (removeSelf c))
      (set_combats (delete id) w) = Ok w' ∧
    CombatManager.run_removeSelf (removeSelf c) w = (w', None) ∧
    CombatManager.get w' id = None ∧
    ∀ lobby_id, id ∉ LobbyService.getActiveCombats w' lobby_id.
Proof.
  intros Hreach Hsafe Hc.
  pose proof (reachable_consistent _ Hreach Hsafe) as Hw.
  pose proof (removeSelf_consistent _ _ _ Hw Hc) as Hw'.
  pose proof (removeSelf_registered _ _ _ Hw Hc) as Hrun.
  rewrite Hrun in Hw'. cbn [fst] in Hw'.
  destruct (cons_key _ Hw _ _ Hc) as (_ & Hid & Hbound).
  exists (set_arrays (alter (prune id) (od_combats (rs_onDeleted (removeSelf c))))
            (set_combats (delete id) w)).
  split_and!.
  - unfold CombatManager.get. cbn. apply lookup_delete_eq.
  - destruct (removeSelf c) as [id' [ℓ oid]]. cbn in *. subst.
    apply run_onDeleted_prune.
  - done.
  - unfold CombatManager.get. cbn. apply lookup_delete_eq.
  - intros lobby_id Hin. unfold LobbyService.getActiveCombats in Hin.
    destruct (managingCombats _ !! lobby_id) as [ℓ|]; [|by apply elem_of_nil in Hin].
    destruct (arrays _ !! ℓ) as [l|] eqn:Hl; [|by apply elem_of_nil in Hin].
    cbn in Hin. destruct (cons_listed _ Hw' _ _ _ Hl Hin) as (c' & Hc' & _).
    cbn in Hc'. by rewrite lookup_delete_eq in Hc'.
Qed.

(** C10. In a state the services can reach, invoking the removal callback
    of a registered session a second time changes nothing: the whole state
    (the registry's session map and every lobby list included) is as the
    first invocation left it, and no error is raised. *)
Theorem removal_callback_idempotent (w : World) (id : string) (c : CombatConnection) :
  reachable w → (managedSoFar w < Js.MAX_EXACT)%N →
  combats w !! id = Some c →
  let w1 := (CombatManager.run_removeSelf (removeSelf c) w).1 in
  CombatManager.run_removeSelf (removeSelf c) w1 = (w1, None).
Proof.
  intros Hreach Hsafe Hc.
  pose proof (reachable_consistent _ Hreach Hsafe) as Hw.
  rewrite (removeSelf_registered _ _ _ Hw Hc). cbn [fst].
  destruct (cons_key _ Hw _ _ Hc) as (_ & Hid & Hbound).
  destruct (removeSelf c) as [id' [ℓ oid]]. cbn in *. subst.
  unfold CombatManager.run_removeSelf, CombatManager.run_onDeleted. cbn.
  fold (prune id). f_equal. unfold set_arrays, set_combats. cbn. f_equal.
  - apply delete_delete_eq.
  - rewrite alter_alter_eq. apply alter_ext. intros l Hl. cbn.
    apply prune_absent, prune_gone. by eapply cons_nodup.
Qed.

(** C9. [LobbyService.createCombat] never returns null: after its first
    statement the lobby's array is found, and the result is the id that
    [CombatManager.createCombat] returns, the counter's value as a string. *)
Theorem createCombat_never_null (lobby_id combatNickname : string)
  (preset : GamePreset) (gm_id : string) (players : list string) (w : World) :
  let r := LobbyService.createCombat lobby_id combatNickname preset gm_id players w in
  let w0 := LobbyService.ensure_combats lobby_id w in
  r.1 ≠ None ∧
  r.1 = Some (Js.toString (managedSoFar w)) ∧
  ∃ array,
    managingCombats w0 !! lobby_id = Some array ∧
    r.1 = Some (CombatManager.createCombat combatNickname preset gm_id players
                  {| od_combats := array; od_combatId := None |} w0).1.
Proof.
  unfold LobbyService.createCombat, LobbyService.ensure_combats.
  destruct (managingCombats w !! lobby_id) as [ℓ|] eqn:Hl; cbn;
    rewrite lookup_insert_eq; cbn; (split_and!; [done|done|]); by eexists.
Qed.

Lemma run_removeSelf_counter (rs : RemoveSelf) (w : World) :
  managedSoFar (CombatManager.run_removeSelf rs w).1 = managedSoFar w.
Proof.
  unfold CombatManager.run_removeSelf, CombatManager.run_onDeleted.
  by destruct (od_combatId _).
Qed.

Lemma run_registry_Create nick preset gm ps od calls w :
  (run_registry (Create nick preset gm ps od :: calls) w).1
  = Js.toString (managedSoFar w)
    :: (run_registry calls (CombatManager.createCombat nick preset gm ps od w).2).1.
Proof.
  cbn [run_registry]. unfold CombatManager.createCombat.
  by destruct (run_registry calls _).
Qed.

Lemma createCombat_counter nick preset gm ps od w :
  managedSoFar (CombatManager.createCombat nick preset gm ps od w).2
  = Js.succ (managedSoFar w).
Proof. done. Qed.

(** Within the exact range of the counter, the ids returned are the
    successive values of the counter. *)
Lemma run_registry_ids (calls : list RegistryCall) (w : World) :
  (managedSoFar w + N.of_nat (creations calls) ≤ Js.MAX_EXACT)%N →
  (run_registry calls w).1
  = (λ i, Js.toString (managedSoFar w + N.of_nat i)) <$> seq 0 (creations calls).
Proof.
  revert w. induction calls as [|[nick preset gm ps od|rs] calls IH]; intros w Hsafe.
  - done.
  - rewrite run_registry_Create. cbn [creations] in *.
    rewrite IH by (rewrite createCombat_counter, succ_exact; lia).
    rewrite createCombat_counter, succ_exact by lia.
    cbn [seq fmap list_fmap]. rewrite N.add_0_r. f_equal.
    rewrite <-fmap_S_seq, <-list_fmap_compose. apply list_fmap_ext.
    intros _ i _. cbn. f_equal. lia.
  - cbn [run_registry creations] in *.
    rewrite IH; rewrite run_removeSelf_counter; done.
Qed.

(** C6. Run any sequence of [createCombat] calls and removal-callback
    invocations on a registry, the counter staying within the range in
    which a Number counts exactly (at most 2^53). The identifiers returned
    are the successive values of the counter, as strings, and no two of
    them are equal, whatever was removed in between. *)
Theorem session_ids_never_reused (calls : list RegistryCall) (w : World) :
  (managedSoFar w + N.of_nat (creations calls) ≤ Js.MAX_EXACT)%N →
  (run_registry calls w).1
  = (λ i, Js.toString (managedSoFar w + N.of_nat i)) <$> seq 0 (creations calls) ∧
  NoDup (run_registry calls w).1.
Proof.
  intros Hsafe. split; [by apply run_registry_ids|].
  rewrite run_registry_ids by done.
  apply NoDup_fmap_2; [|apply NoDup_seq].
  intros i j Hij. apply toString_inj in Hij. lia.
Qed.

End registry.

(** ** Connection admission *)

Section admission.
Context `{!AuthService}.

(** C3, amended. Let the access token be invalid. If the session id
    resolves to a registered session, the connection is sent
    "invalid_token" and is then disconnected. If it does not resolve, the
    connection is disconnected without that signal (the token is not
    looked at). In both cases [handlePlayer] is not called and no session
    changes. *)
Theorem invalid_token_rejected (socket : Socket) (combat_id userToken : string) (w : World) :
  verifyAccessToken userToken = None →
  let w' := LobbyService.manageSocket socket combat_id userToken w in
  combats w' = combats w ∧
  (∀ e, e ∈ drop (length (effects w)) (effects w') → is_HandlePlayer e = false) ∧
  match CombatManager.get w combat_id with
  | Some _ =>
      effects w' = (effects w ++ [Emit socket "invalid_token";
                                  ConsoleLog ["Error verifying token"];
                                  Disconnect socket])%list
  | None =>
      effects w' = (effects w ++ [ConsoleLog ["Combat not found"]; Disconnect socket])%list
  end.
Proof.
  intros Htoken. unfold LobbyService.manageSocket.
  destruct (CombatManager.get w combat_id) as [c|]; [rewrite Htoken|]; cbn;
    rewrite <-?(assoc_L (++)); cbn; (split_and!; [done| |done]);
    rewrite drop_app_length; intros e; rewrite !elem_of_cons, elem_of_nil;
    intros [->|[->|[->|[]]]] || intros [->|[->|[]]]; done.
Qed.

(** C4. Let the session id resolve, and let both tokens be valid for the
    same player, who has no connection attached to the session. The first
    attempt calls [handlePlayer] and the player is then connected through
    the first socket. The second attempt is rejected: its socket is
    disconnected, [handlePlayer] is not called, and the sessions are
    unchanged, so the first socket remains the player's connection. *)
Theorem single_connection_per_player (socket1 socket2 : Socket)
  (combat_id userToken1 userToken2 user_id : string) (c : CombatConnection) (w : World) :
  CombatManager.get w combat_id = Some c →
  verifyAccessToken userToken1 = Some user_id →
  verifyAccessToken userToken2 = Some user_id →
  CombatConnection.isPlayerInCombat c user_id = false →
  let w1 := LobbyService.manageSocket socket1 combat_id userToken1 w in
  let w2 := LobbyService.manageSocket socket2 combat_id userToken2 w1 in
  effects w1 = (effects w ++ [HandlePlayer combat_id user_id socket1])%list ∧
  (∃ c1, CombatManager.get w1 combat_id = Some c1 ∧
         connections c1 !! user_id = Some socket1 ∧
         CombatConnection.isPlayerInCombat c1 user_id = true) ∧
  effects w2 = (effects w1 ++ [ConsoleLog ["Player is in combat"]; Disconnect socket2])%list ∧
  combats w2 = combats w1.
Proof.
  intros Hc Htok1 Htok2 Hout. cbn zeta.
  assert (Hw1 : LobbyService.manageSocket socket1 combat_id userToken1 w
                = set_combats (insert combat_id (CombatConnection.handlePlayer c user_id socket1))
                    (emit (HandlePlayer combat_id user_id socket1) w)).
  { unfold LobbyService.manageSocket. by rewrite Hc, Htok1, Hout. }
  rewrite Hw1.
  assert (Hin : CombatConnection.isPlayerInCombat
                  (CombatConnection.handlePlayer c user_id socket1) user_id = true).
  { unfold CombatConnection.isPlayerInCombat. cbn. rewrite lookup_insert_eq.
    apply bool_decide_eq_true. by eexists. }
  split_and!.
  - done.
  - eexists. split_and!; [unfold CombatManager.get; cbn; apply lookup_insert_eq| |done].
    cbn. apply lookup_insert_eq.
  - unfold LobbyService.manageSocket, CombatManager.get. cbn [combats set_combats].
    rewrite lookup_insert_eq, Htok2, Hin. cbn. by rewrite <-(assoc_L (++)).
  - unfold LobbyService.manageSocket, CombatManager.get. cbn [combats set_combats].
    rewrite lookup_insert_eq, Htok2, Hin. done.
Qed.

End admission.

(** ** Storage lookups *)

Section lookups.
Context `{!ObjectIdCtor}.

(** An identifier the ObjectId constructor rejects makes a lookup throw,
    except for [getLobby] on the empty string. *)
Lemma lookups_rejected_id (db : Storage) (id : string) :
  new_ObjectId id = None →
  DatabaseService.getUser db id = Throw BSONError ∧
  DatabaseService.getCharacter db id = Throw BSONError ∧
  DatabaseService.getCombatPreset db id = Throw BSONError ∧
  DatabaseService.getLobby db id = if decide (id = "") then Ok None else Throw BSONError.
Proof.
  intros Hid.
  unfold DatabaseService.getUser, DatabaseService.getCharacter,
    DatabaseService.getCombatPreset, DatabaseService.getLobby,
    DatabaseService.Types_ObjectId.
  rewrite Hid. by case_decide.
Qed.

(** C8, amended. For every identifier string that the ObjectId constructor
    accepts, [getLobby], [getUser], [getCharacter] and [getCombatPreset]
    return null, without throwing, when the collection holds no document
    with that identifier; [getLobby] also returns null for the empty
    string. *)
Theorem lookups_absent_null (db : Storage) (id : string) (_id : ObjectId) :
  new_ObjectId id = Some _id →
  (lobbies db !! _id = None → DatabaseService.getLobby db id = Ok None) ∧
  (users db !! _id = None → DatabaseService.getUser db id = Ok None) ∧
  (characters db !! _id = None → DatabaseService.getCharacter db id = Ok None) ∧
  (combat_presets db !! _id = None →
   DatabaseService.getCombatPreset db id = Ok None) ∧
  DatabaseService.getLobby db "" = Ok None.
Proof.
  intros Hid.
  unfold DatabaseService.getUser, DatabaseService.getCharacter,
    DatabaseService.getCombatPreset, DatabaseService.getLobby,
    DatabaseService.Types_ObjectId, DatabaseService.findOne.
  rewrite Hid. cbn. split_and!; try (by intros ->).
  - case_decide; [done|]. by intros ->.
  - done.
Qed.

End lookups.

(** ** Scenarios *)

Section scenarios.
Import Scenario CookPreset.

(** C1 at the scenario of section 8: the combat created for "lobby1" is
    listed, and after its callback it is neither registered nor listed. *)
Lemma removal_callback_unregisters_witness :
  @reachable no_auth boss_fight ∧
  (managedSoFar boss_fight < Js.MAX_EXACT)%N ∧
  combats boss_fight !! "0" = Some boss_fight_session ∧
  LobbyService.getActiveCombats boss_fight "lobby1" = ["0"] ∧
  ∃ w', CombatManager.run_removeSelf (removeSelf boss_fight_session) boss_fight
        = (w', None) ∧
        CombatManager.get w' "0" = None ∧
        "0" ∉ LobbyService.getActiveCombats w' "lobby1".
Proof.
  assert (Hreach : @reachable no_auth boss_fight).
  { apply rtc_once. apply (@step_createCombat no_auth). }
  assert (Hsafe : (managedSoFar boss_fight < Js.MAX_EXACT)%N) by (vm_compute; reflexivity).
  assert (Hc : combats boss_fight !! "0" = Some boss_fight_session)
    by (vm_compute; reflexivity).
  destruct (@removal_callback_unregisters no_auth boss_fight "0" boss_fight_session
              Hreach Hsafe Hc) as (w' & _ & _ & Hrun & Hget & Hlist).
  split_and!; [done|done|done|vm_compute; reflexivity|].
  exists w'. split_and!; [done|done|apply Hlist].
Defined.

(** C10 at the same scenario. *)
Lemma removal_callback_idempotent_witness :
  @reachable no_auth boss_fight ∧
  (managedSoFar boss_fight < Js.MAX_EXACT)%N ∧
  combats boss_fight !! "0" = Some boss_fight_session ∧
  let w1 := (CombatManager.run_removeSelf (removeSelf boss_fight_session) boss_fight).1 in
  CombatManager.run_removeSelf (removeSelf boss_fight_session) w1 = (w1, None).
Proof.
  assert (Hreach : @reachable no_auth boss_fight).
  { apply rtc_once. apply (@step_createCombat no_auth). }
  assert (Hsafe : (managedSoFar boss_fight < Js.MAX_EXACT)%N) by (vm_compute; reflexivity).
  assert (Hc : combats boss_fight !! "0" = Some boss_fight_session)
    by (vm_compute; reflexivity).
  split_and!; [done|done|done|].
  exact (@removal_callback_idempotent no_auth boss_fight "0" boss_fight_session
           Hreach Hsafe Hc).
Defined.

(** C6 on two creations with a removal in between. *)
Lemma session_ids_never_reused_witness :
  (managedSoFar initial + N.of_nat (creations create_remove_create) ≤ Js.MAX_EXACT)%N ∧
  (run_registry create_remove_create initial).1 = ["0"; "1"] ∧
  NoDup (run_registry create_remove_create initial).1.
Proof.
  assert (Hsafe : (managedSoFar initial + N.of_nat (creations create_remove_create)
                   ≤ Js.MAX_EXACT)%N) by (vm_compute; discriminate).
  destruct (session_ids_never_reused create_remove_create initial Hsafe) as [Hids Hnd].
  split_and!; [done|vm_compute; reflexivity|done].
Defined.

(** C3 as stated fails: with no session under the id, a connection with
    an invalid token is disconnected without the "invalid_token" signal. *)
Lemma invalid_token_without_signal :
  let w' := @LobbyService.manageSocket no_auth 7 "0" "expired" initial in
  @verifyAccessToken no_auth "expired" = None ∧
  effects w' = [ConsoleLog ["Combat not found"]; Disconnect 7] ∧
  Emit 7 "invalid_token" ∉ effects w'.
Proof.
  cbn. split_and!; [done..|]. intros Hin.
  repeat (apply elem_of_cons in Hin as [?|Hin]; [done|]).
  by apply elem_of_nil in Hin.
Qed.

(** C3, amended, on the combat of section 8. *)
Lemma invalid_token_rejected_witness :
  @verifyAccessToken no_auth "expired" = None ∧
  effects (@LobbyService.manageSocket no_auth 7 "0" "expired" boss_fight)
  = [ConsoleLog ["Combat created"; "0"]; Emit 7 "invalid_token";
     ConsoleLog ["Error verifying token"]; Disconnect 7] ∧
  combats (@LobbyService.manageSocket no_auth 7 "0" "expired" boss_fight)
  = combats boss_fight.
Proof.
  assert (Htoken : @verifyAccessToken no_auth "expired" = None) by reflexivity.
  destruct (@invalid_token_rejected no_auth 7 "0" "expired" boss_fight Htoken)
    as (Hsame & _ & Heff).
  split_and!; [done| |done].
  vm_compute. reflexivity.
Defined.

(** C4 on the combat of section 8: player p1 joins through socket 1, then
    tries again through socket 2. *)
Lemma single_connection_per_player_witness :
  let w1 := @LobbyService.manageSocket p1_auth 1 "0" "token-p1" boss_fight in
  let w2 := @LobbyService.manageSocket p1_auth 2 "0" "token-p1" w1 in
  CombatManager.get boss_fight "0" = Some boss_fight_session ∧
  @verifyAccessToken p1_auth "token-p1" = Some "p1" ∧
  CombatConnection.isPlayerInCombat boss_fight_session "p1" = false ∧
  effects w2 = [ConsoleLog ["Combat created"; "0"]; HandlePlayer "0" "p1" 1;
                ConsoleLog ["Player is in combat"]; Disconnect 2] ∧
  combats w2 = combats w1 ∧
  (connections <$> CombatManager.get w2 "0") = Some {[ "p1" := 1 ]}.
Proof.
  assert (Hc : CombatManager.get boss_fight "0" = Some boss_fight_session)
    by (vm_compute; reflexivity).
  assert (Htoken : @verifyAccessToken p1_auth "token-p1" = Some "p1") by reflexivity.
  assert (Hout : CombatConnection.isPlayerInCombat boss_fight_session "p1" = false)
    by reflexivity.
  destruct (@single_connection_per_player p1_auth 1 2 "0" "token-p1" "token-p1" "p1"
              boss_fight_session boss_fight Hc Htoken Htoken Hout)
    as (_ & _ & _ & Hsame).
  cbn zeta. split_and!; [done|done|done| |done|]; vm_compute; reflexivity.
Defined.

(** C5 on a stored preset and on a request that place an embedded wraith
    while the store holds the goblin only. *)
Lemma dangling_embedded_pawn_NotFound_witness :
  @getEntity goblin_only "wraith" = None ∧
  @cookPresetFromDB ObjectId_hex24 goblin_only storage preset_dangling
  = Throw (NotFound "Entity not found") ∧
  @cookPresetFromRequest goblin_only request_dangling
  = Throw (NotFound "Entity not found").
Proof.
  assert (Habsent : @getEntity goblin_only "wraith" = None) by reflexivity.
  destruct (@dangling_embedded_pawn_NotFound ObjectId_hex24 goblin_only storage
              preset_dangling {| field := [goblin_A1; wraith_B2] |}
              request_dangling "wraith" Habsent) as [Hdb Hreq].
  split_and!; [done| |].
  - apply Hdb; [vm_compute; reflexivity|].
    exists wraith_B2. split_and!; [|reflexivity..].
    apply elem_of_cons. right. apply elem_of_cons. by left.
  - apply Hreq. exists "B2". eexists. split_and!; [vm_compute; reflexivity|done..].
Defined.

(** C2 as stated fails: a stored preset with two pawns on square A1 is
    cooked without error; the later pawn takes the square. *)
Lemma cooking_accepts_shared_square :
  pawn_square goblin_A1 = pawn_square orc_A1 ∧
  @DatabaseService.getCombatPreset ObjectId_hex24 storage preset_shared
  = Ok (Some {| field := [goblin_A1; orc_A1] |}) ∧
  @cookPresetFromDB ObjectId_hex24 goblin_only storage preset_shared
  = Ok (Some {| field_pawns :=
                  {| Js.own := {[ "A1" := to_field_pawn orc_A1 ]}; Js.proto := None |};
                custom_entities := ∅ |}).
Proof. split_and!; vm_compute; reflexivity. Qed.

(** C2, amended, on the two pawns of square A1. *)
Lemma shared_square_rejected_when_stored_witness :
  ¬ NoDup (pawn_square <$> [goblin_A1; orc_A1]) ∧
  DatabaseService.createNewCombatPreset [goblin_A1; orc_A1] preset_shared true storage
  = (Throw (BadRequest "Multiple pawns on the same square"), storage) ∧
  (@cookPresetFromDB ObjectId_hex24 goblin_only storage preset_shared
   = Throw (NotFound "Entity not found") ∨
   ∃ seed, @cookPresetFromDB ObjectId_hex24 goblin_only storage preset_shared
           = Ok (Some seed)) ∧
  (@cookPresetFromRequest goblin_only request_dangling
   = Throw (NotFound "Entity not found") ∨
   ∃ seed, @cookPresetFromRequest goblin_only request_dangling = Ok seed).
Proof.
  assert (Hdup : ¬ NoDup (pawn_square <$> [goblin_A1; orc_A1])).
  { intros Hnd. apply NoDup_cons in Hnd as [Hin _]. apply Hin.
    apply elem_of_cons. by left. }
  destruct (@shared_square_rejected_when_stored ObjectId_hex24 goblin_only
              [goblin_A1; orc_A1] preset_shared true storage preset_shared
              request_dangling Hdup) as (Hstore & Hcook & Hreq).
  split_and!; [done|done| |done].
  apply Hcook. vm_compute. reflexivity.
Defined.

(** C8 as stated fails: "lobby1" names no document, and looking it up
    throws instead of returning null. *)
Lemma malformed_id_throws :
  (∀ _id, users storage !! _id = None) ∧
  @DatabaseService.getUser ObjectId_hex24 storage "lobby1" = Throw BSONError ∧
  @DatabaseService.getLobby ObjectId_hex24 storage "lobby1" = Throw BSONError ∧
  @DatabaseService.getCharacter ObjectId_hex24 storage "lobby1" = Throw BSONError ∧
  @DatabaseService.getCombatPreset ObjectId_hex24 storage "lobby1" = Throw BSONError.
Proof. split_and!; [intros _id; apply lookup_empty|vm_compute; reflexivity..]. Qed.

(** C8, amended, on a well-formed identifier that names no document. *)
Lemma lookups_absent_null_witness :
  @new_ObjectId ObjectId_hex24 "65A0000000000000000000FF"
  = Some "65a0000000000000000000ff" ∧
  @DatabaseService.getLobby ObjectId_hex24 storage "65A0000000000000000000FF" = Ok None ∧
  @DatabaseService.getUser ObjectId_hex24 storage "65A0000000000000000000FF" = Ok None ∧
  @DatabaseService.getCharacter ObjectId_hex24 storage "65A0000000000000000000FF"
  = Ok None ∧
  @DatabaseService.getCombatPreset ObjectId_hex24 storage "65A0000000000000000000FF"
  = Ok None.
Proof.
  assert (Hid : @new_ObjectId ObjectId_hex24 "65A0000000000000000000FF"
                = Some "65a0000000000000000000ff") by (vm_compute; reflexivity).
  destruct (@lookups_absent_null ObjectId_hex24 storage _ _ Hid)
    as (Hlobby & Huser & Hcharacter & Hpreset & _).
  split_and!; [done|apply Hlobby|apply Huser|apply Hcharacter|apply Hpreset];
    vm_compute; reflexivity.
Defined.

(** C7. The combat loop of [getLobbyInfo] walks the indices of the lobby's
    list, not the ids stored in it. After a lobby's first combat ("0") has
    ended and a second ("1") was created, the list is ["1"] and session
    "1" is live, yet the aggregation is empty. With two lobbies, lobby B,
    whose list is ["1"], is given the details of session "0", which
    belongs to lobby A. *)
Theorem getLobbyInfo_skips_live_session :
  LobbyService.getActiveCombats second_after_first_ended lobby_a = ["1"] ∧
  (combatNickname <$> CombatManager.get second_after_first_ended "1") = Some "Second" ∧
  @LobbyService.getLobbyInfo_combats ObjectId_hex24 second_after_first_ended storage
    lobby_a = Ok [] ∧
  LobbyService.getActiveCombats two_lobbies lobby_b = ["1"] ∧
  LobbyService.getActiveCombats two_lobbies lobby_a = ["0"] ∧
  @LobbyService.getLobbyInfo_combats ObjectId_hex24 two_lobbies storage lobby_b
  = Ok [{| ci_nickname := "Alpha"; ci_isActive := false; ci_roundCount := 0;
           ci_id := "0"; ci_activePlayers := [] |}].
Proof. split_and!; vm_compute; reflexivity. Qed.

End scenarios.

(** * Further properties of the services *)

(** ** The lobby index *)

Section lobby_index.
Context `{!AuthService}.

Lemma elem_of_prune_ne (x y : string) (l : list string) :
  y ∈ l → y ≠ x → y ∈ prune x l.
Proof.
  intros Hin Hne. induction l as [|z l IH]; [done|].
  rewrite prune_cons. apply elem_of_cons in Hin as [->|Hin].
  - rewrite decide_False by done. apply elem_of_cons. by left.
  - case_decide; [done|]. apply elem_of_cons. right. by apply IH.
Qed.

Lemma prune_snoc (x : string) (l : list string) : x ∉ l → prune x (l ++ [x]) = l.
Proof.
  induction l as [|z l IH]; intros Hx.
  - cbn. rewrite prune_cons. by rewrite decide_True.
  - apply not_elem_of_cons in Hx as [Hne Hx]. cbn. rewrite prune_cons.
    rewrite decide_False by done. by rewrite IH.
Qed.

(** [createCombat] in closed form. *)
Lemma createCombat_fields lobby_id nick preset gm ps w :
  consistent w → (managedSoFar w < Js.MAX_EXACT)%N →
  let r := LobbyService.createCombat lobby_id nick preset gm ps w in
  let id := Js.toString (managedSoFar w) in
  ∃ ℓ c l0,
    r.1 = Some id ∧
    combats w !! id = None ∧
    combats r.2 = <[id := c]> (combats w) ∧
    removeSelf c = {| rs_combat_id := id;
                      rs_onDeleted := {| od_combats := ℓ; od_combatId := Some id |} |} ∧
    managingCombats r.2 = <[lobby_id := ℓ]> (managingCombats w) ∧
    arrays r.2 = <[ℓ := (l0 ++ [id])%list]> (arrays w) ∧
    LobbyService.getActiveCombats w lobby_id = l0 ∧
    (managingCombats w !! lobby_id = Some ℓ ∧ arrays w !! ℓ = Some l0 ∨
     managingCombats w !! lobby_id = None ∧ arrays w !! ℓ = None ∧ l0 = []) ∧
    managedSoFar r.2 = (managedSoFar w + 1)%N.
Proof.
  intros Hw Hsafe r id.
  assert (Hfresh_id : combats w !! id = None).
  { destruct (combats w !! id) eqn:E; [|done].
    destruct (cons_key _ Hw _ _ E) as [(n & Hn & Heq) _].
    apply toString_inj in Heq. lia. }
  subst r. unfold LobbyService.createCombat, LobbyService.ensure_combats,
    LobbyService.getActiveCombats.
  destruct (managingCombats w !! lobby_id) as [ℓ|] eqn:Hl.
  - destruct (cons_alloc _ Hw _ _ Hl) as [l Hlist]. rewrite Hlist.
    cbn. rewrite lookup_insert_eq. cbn. fold id.
    exists ℓ, (CombatConnection.bind_combatId id
                 (CombatConnection.new nick preset
                    {| rs_combat_id := id;
                       rs_onDeleted := {| od_combats := ℓ; od_combatId := None |} |}
                    gm ps)), l.
    split_and!; [done|done| |done|done| |done|by left|by apply succ_exact].
    + apply map_eq. intros k. rewrite lookup_alter, !lookup_insert.
      repeat case_decide; done.
    + apply map_eq. intros k. rewrite lookup_alter, lookup_insert.
      case_decide; [by rewrite Hlist|done].
  - cbn. rewrite lookup_insert_eq. cbn. fold id.
    set (ℓ := fresh (dom (arrays w))).
    assert (Hℓ : arrays w !! ℓ = None) by (apply not_elem_of_dom, is_fresh).
    exists ℓ, (CombatConnection.bind_combatId id
                 (CombatConnection.new nick preset
                    {| rs_combat_id := id;
                       rs_onDeleted := {| od_combats := ℓ; od_combatId := None |} |}
                    gm ps)), [].
    split_and!; [done|done| |done|done| |done|by right|by apply succ_exact].
    + apply map_eq. intros k. rewrite lookup_alter, !lookup_insert.
      repeat case_decide; done.
    + apply map_eq. intros k. rewrite lookup_alter, !lookup_insert.
      repeat case_decide; done.
Qed.

Lemma initial_indexed : indexed initial.
Proof. split; cbn; intros *; rewrite lookup_empty; done. Qed.

Lemma createCombat_indexed lobby_id nick preset gm ps w :
  consistent w → indexed w → (managedSoFar w < Js.MAX_EXACT)%N →
  indexed (LobbyService.createCombat lobby_id nick preset gm ps w).2.
Proof.
  intros Hw [Hlisted Howned Hinj] Hsafe.
  destruct (createCombat_fields lobby_id nick preset gm ps w Hw Hsafe)
    as (ℓ & c & l0 & _ & Hnone & Hcs & Hrs & Hmc & Har & _ & Hcase & _).
  split; rewrite ?Hcs, ?Hmc, ?Har.
  - intros id' c'. rewrite lookup_insert. case_decide as Hid.
    + intros [= <-]. rewrite Hrs. cbn. rewrite lookup_insert_eq. eexists. split; [done|].
      subst. apply elem_of_app. right. by apply list_elem_of_singleton.
    + intros Hc'. destruct (Hlisted _ _ Hc') as (l' & Hl' & Hin).
      rewrite lookup_insert. case_decide as Hℓ; [|by eauto].
      rewrite <-Hℓ in Hl'. eexists. split; [done|].
      destruct Hcase as [[_ Hl0]|(_ & Hl0 & _)]; [|congruence].
      apply elem_of_app. left. congruence.
  - intros id' c'. rewrite lookup_insert. case_decide as Hid.
    + intros [= <-]. rewrite Hrs. cbn. exists lobby_id. by rewrite lookup_insert_eq.
    + intros Hc'. destruct (Howned _ _ Hc') as (lobby & Hlobby).
      exists lobby. rewrite lookup_insert. case_decide; [|done].
      subst. destruct Hcase as [[Hl _]|(Hl & _)]; congruence.
  - assert (Hother : ∀ lobby, managingCombats w !! lobby = Some ℓ → lobby = lobby_id).
    { intros lobby Hlobby. destruct Hcase as [[Hl _]|(_ & Hl0 & _)]; [by eapply Hinj|].
      destruct (cons_alloc _ Hw _ _ Hlobby) as [? ?]. congruence. }
    intros lobby1 lobby2 ℓ'. rewrite !lookup_insert.
    destruct (decide (lobby_id = lobby1)) as [<-|], (decide (lobby_id = lobby2)) as [<-|];
      [done|..].
    + intros [= <-] Hl2. symmetry. by apply Hother.
    + intros Hl1 [= <-]. by apply Hother.
    + apply Hinj.
Qed.

Lemma removeSelf_indexed id c w :
  consistent w → indexed w → combats w !! id = Some c →
  indexed (CombatManager.run_removeSelf (removeSelf c) w).1.
Proof.
  intros Hw [Hlisted Howned Hinj] Hc.
  rewrite (removeSelf_registered id) by done. cbn [fst].
  split; cbn; [| |done].
  - intros id' c'. rewrite lookup_delete. case_decide as Hid; [done|]. intros Hc'.
    destruct (Hlisted _ _ Hc') as (l & Hl & Hin).
    rewrite lookup_alter. case_decide as Hℓ.
    + rewrite Hℓ, Hl. cbn. eexists. split; [done|]. by apply elem_of_prune_ne.
    + by eauto.
  - intros id' c'. rewrite lookup_delete. case_decide; [done|]. apply Howned.
Qed.

Lemma manageSocket_indexed socket combat_id userToken w :
  indexed w → indexed (LobbyService.manageSocket socket combat_id userToken w).
Proof.
  intros Hw. unfold LobbyService.manageSocket, CombatManager.get.
  destruct (combats w !! combat_id) as [c|] eqn:Hc; [|by destruct Hw].
  destruct (verifyAccessToken userToken) as [user_id|]; [|by destruct Hw].
  destruct (CombatConnection.isPlayerInCombat c user_id); [by destruct Hw|].
  destruct Hw as [Hlisted Howned Hinj]. split; cbn; [| |done].
  - intros id c'. rewrite lookup_insert. case_decide; [|apply Hlisted].
    subst. intros [= <-]. cbn. by apply Hlisted.
  - intros id c'. rewrite lookup_insert. case_decide; [|apply Howned].
    subst. intros [= <-]. cbn. by eapply Howned.
Qed.

Lemma reachable_indexed w :
  reachable w → (managedSoFar w < Js.MAX_EXACT)%N → indexed w.
Proof.
  unfold reachable. intros Hsteps.
  assert (Hreach : ∀ w', rtc step initial w' → reachable w') by done.
  revert w Hsteps.
  apply (rtc_ind_r (λ w, (managedSoFar w < Js.MAX_EXACT)%N → indexed w)).
  - intros _. apply initial_indexed.
  - intros w1 w2 Hsteps Hstep IH Hsafe.
    pose proof (step_counter_mono _ _ Hstep).
    assert (Hw1 : consistent w1) by (apply reachable_consistent; [done|lia]).
    assert (Hi1 : indexed w1) by (apply IH; lia).
    destruct Hstep.
    + apply createCombat_indexed; [done|done|lia].
    + by eapply removeSelf_indexed.
    + by apply manageSocket_indexed.
Qed.

(** X1. In every state the services can reach, the lobby index and the
    registry hold the same session ids: an id resolves through [get]
    exactly when some lobby's active-combat list contains it; an id is
    listed under one lobby only; and no list holds an id twice. *)
Theorem lobby_index_matches_registry (w : World) :
  reachable w → (managedSoFar w < Js.MAX_EXACT)%N →
  (∀ id, is_Some (CombatManager.get w id)
         ↔ ∃ lobby_id, id ∈ LobbyService.getActiveCombats w lobby_id) ∧
  (∀ id lobby1 lobby2,
     id ∈ LobbyService.getActiveCombats w lobby1 →
     id ∈ LobbyService.getActiveCombats w lobby2 → lobby1 = lobby2) ∧
  (∀ lobby_id, NoDup (LobbyService.getActiveCombats w lobby_id)).
Proof.
  intros Hreach Hsafe.
  pose proof (reachable_consistent _ Hreach Hsafe) as Hw.
  pose proof (reachable_indexed _ Hreach Hsafe) as Hi.
  assert (Hmember : ∀ id lobby_id, id ∈ LobbyService.getActiveCombats w lobby_id →
            ∃ ℓ c, managingCombats w !! lobby_id = Some ℓ ∧ combats w !! id = Some c ∧
                   od_combats (rs_onDeleted (removeSelf c)) = ℓ).
  { intros id lobby_id. unfold LobbyService.getActiveCombats.
    destruct (managingCombats w !! lobby_id) as [ℓ|]; [|by intros ?%elem_of_nil].
    destruct (arrays w !! ℓ) as [l|] eqn:Hl; [|by intros ?%elem_of_nil].
    cbn. intros Hin. destruct (cons_listed _ Hw _ _ _ Hl Hin) as (c & Hc & Hℓ).
    by exists ℓ, c. }
  split_and!.
  - intros id. split.
    + intros [c Hc]. unfold CombatManager.get in Hc.
      destruct (idx_listed _ Hi _ _ Hc) as (l & Hl & Hin).
      destruct (idx_owned _ Hi _ _ Hc) as (lobby_id & Hlobby).
      exists lobby_id. unfold LobbyService.getActiveCombats. by rewrite Hlobby, Hl.
    + intros (lobby_id & Hin). destruct (Hmember _ _ Hin) as (ℓ & c & _ & Hc & _).
      by exists c.
  - intros id lobby1 lobby2 Hin1 Hin2.
    destruct (Hmember _ _ Hin1) as (ℓ1 & c1 & Hl1 & Hc1 & Hℓ1).
    destruct (Hmember _ _ Hin2) as (ℓ2 & c2 & Hl2 & Hc2 & Hℓ2).
    eapply (idx_inj _ Hi); [done|]. congruence.
  - intros lobby_id. unfold LobbyService.getActiveCombats.
    destruct (managingCombats w !! lobby_id) as [ℓ|]; [|constructor].
    destruct (arrays w !! ℓ) as [l|] eqn:Hl; [|constructor].
    by eapply cons_nodup.
Qed.


(** X2. In a reachable state, [LobbyService.createCombat] returns an id
    that was not registered before, registers a session under it, leaves
    every other registered session as it was, appends the id at the end of
    the lobby's active-combat list and leaves the other lobbies' lists
    unchanged. *)
Theorem createCombat_appends_to_lobby (lobby_id combatNickname : string)
  (preset : GamePreset) (gm_id : string) (players : list string) (w : World) :
  reachable w → (managedSoFar w < Js.MAX_EXACT)%N →
  let r := LobbyService.createCombat lobby_id combatNickname preset gm_id players w in
  let id := Js.toString (managedSoFar w) in
  r.1 = Some id ∧
  CombatManager.get w id = None ∧
  is_Some (CombatManager.get r.2 id) ∧
  (∀ id', id' ≠ id → CombatManager.get r.2 id' = CombatManager.get w id') ∧
  LobbyService.getActiveCombats r.2 lobby_id
  = (LobbyService.getActiveCombats w lobby_id ++ [id])%list ∧
  (∀ lobby, lobby ≠ lobby_id →
     LobbyService.getActiveCombats r.2 lobby = LobbyService.getActiveCombats w lobby).
Proof.
  intros Hreach Hsafe r id.
  pose proof (reachable_consistent _ Hreach Hsafe) as Hw.
  pose proof (reachable_indexed _ Hreach Hsafe) as Hi.
  destruct (createCombat_fields lobby_id combatNickname preset gm_id players w Hw Hsafe)
    as (ℓ & c & l0 & Hr & Hnone & Hcs & Hrs & Hmc & Har & Hl0 & Hcase & _).
  fold r id in Hr, Hcs, Hmc, Har, Hnone.
  unfold CombatManager.get. rewrite Hcs.
  split_and!; [done|done|by rewrite lookup_insert_eq| | |].
  - intros id' Hid'. by rewrite lookup_insert_ne.
  - unfold LobbyService.getActiveCombats at 1.
    by rewrite Hmc, Har, !lookup_insert_eq, Hl0.
  - intros lobby Hlobby. unfold LobbyService.getActiveCombats.
    rewrite Hmc, Har, lookup_insert_ne by done.
    destruct (managingCombats w !! lobby) as [ℓ'|] eqn:Hℓ'; [|done].
    rewrite lookup_insert_ne; [done|]. intros <-.
    destruct Hcase as [[Hl _]|(_ & Hnew & _)].
    + apply Hlobby. by eapply (idx_inj _ Hi).
    + destruct (cons_alloc _ Hw _ _ Hℓ') as [? ?]. congruence.
Qed.

(** X3. Creating a combat and letting that session invoke its removal
    callback undoes the creation: the registry's session map and every
    lobby's active-combat list are as before the creation. *)
Theorem create_then_end_restores (lobby_id combatNickname : string)
  (preset : GamePreset) (gm_id : string) (players : list string) (w : World) :
  reachable w → (managedSoFar w < Js.MAX_EXACT)%N →
  let r := LobbyService.createCombat lobby_id combatNickname preset gm_id players w in
  let w' := session_ends (Js.toString (managedSoFar w)) r.2 in
  combats w' = combats w ∧
  ∀ lobby, LobbyService.getActiveCombats w' lobby = LobbyService.getActiveCombats w lobby.
Proof.
  intros Hreach Hsafe r.
  pose proof (reachable_consistent _ Hreach Hsafe) as Hw.
  pose proof (reachable_indexed _ Hreach Hsafe) as Hi.
  destruct (createCombat_fields lobby_id combatNickname preset gm_id players w Hw Hsafe)
    as (ℓ & c & l0 & Hr & Hnone & Hcs & Hrs & Hmc & Har & Hl0 & Hcase & _).
  fold r in Hr, Hcs, Hmc, Har. clearbody r.
  set (id := Js.toString (managedSoFar w)) in *.
  assert (Hid : id ∉ l0).
  { intros Hin. destruct Hcase as [[_ Hl]|(_ & _ & ->)]; [|by apply elem_of_nil in Hin].
    destruct (cons_listed _ Hw _ _ _ Hl Hin) as (? & ? & _). congruence. }
  unfold session_ends, CombatManager.get. rewrite Hcs, lookup_insert_eq.
  unfold CombatManager.run_removeSelf, CombatManager.run_onDeleted. rewrite Hrs.
  cbn. fold (prune id). rewrite Hcs. split.
  - by apply delete_insert_id.
  - intros lobby. unfold LobbyService.getActiveCombats. cbn. rewrite Hmc, Har.
    assert (Harr : alter (prune id) ℓ (<[ℓ:=(l0 ++ [id])%list]> (arrays w))
                   = <[ℓ := l0]> (arrays w)).
    { apply map_eq. intros k. rewrite lookup_alter, !lookup_insert.
      repeat case_decide; try done. cbn. by rewrite prune_snoc. }
    rewrite Harr. rewrite lookup_insert. case_decide as Hlobby.
    + subst lobby. rewrite lookup_insert_eq. cbn.
      unfold LobbyService.getActiveCombats in Hl0. done.
    + destruct (managingCombats w !! lobby) as [ℓ'|] eqn:Hℓ'; [|done].
      rewrite lookup_insert_ne; [done|]. intros <-.
      destruct Hcase as [[Hl _]|(_ & Hnew & _)].
      * apply Hlobby. by eapply (idx_inj _ Hi).
      * destruct (cons_alloc _ Hw _ _ Hℓ') as [? ?]. congruence.
Qed.

(** X4. A registered session disappears from the registry only through
    its own removal callback: if one call into the services makes a
    registered id unresolvable, that call was the session's [removeSelf]. *)
Theorem only_own_callback_unregisters (w w' : World) (id : string)
  (c : CombatConnection) :
  reachable w → (managedSoFar w < Js.MAX_EXACT)%N → step w w' →
  combats w !! id = Some c → combats w' !! id = None →
  w' = (CombatManager.run_removeSelf (removeSelf c) w).1.
Proof.
  intros Hreach Hsafe Hstep Hc Hgone.
  pose proof (reachable_consistent _ Hreach Hsafe) as Hw.
  destruct Hstep as [lobby_id nick preset gm ps w|id2 c2 w Hc2|socket id2 tok w].
  - exfalso. revert Hgone.
    unfold LobbyService.createCombat, LobbyService.ensure_combats.
    destruct (managingCombats w !! lobby_id); cbn; rewrite lookup_insert_eq; cbn;
      rewrite lookup_alter; (case_decide;
        [rewrite lookup_insert_eq; cbn; congruence
        |rewrite lookup_insert_ne by done; congruence]).
  - rewrite (removeSelf_registered id2) in Hgone by done. cbn in Hgone.
    rewrite lookup_delete in Hgone. case_decide; [|congruence].
    subst. by simplify_eq.
  - exfalso. revert Hgone. unfold LobbyService.manageSocket, CombatManager.get.
    destruct (combats w !! id2) as [c2|] eqn:Hc2; [|cbn; congruence].
    destruct (verifyAccessToken tok) as [user_id|]; [|cbn; congruence].
    destruct (CombatConnection.isPlayerInCombat c2 user_id); [cbn; congruence|].
    cbn. rewrite lookup_insert. case_decide; congruence.
Qed.

End lobby_index.

(** ** Admission, case by case *)

Section admission_more.
Context `{!AuthService}.

(** X5. What [manageSocket] does, for every state and every attempt. It
    never touches the counter or the lobby lists and never adds or removes
    a session. Either the session is found, the token is valid and the
    player has no connection yet: then [handlePlayer] is called, once, and
    nothing is sent to or closed on the socket. Or one of the three fails:
    then no session changes, [handlePlayer] is not called, and the effects
    are notices followed by the disconnection of the socket. *)
Theorem manageSocket_attaches_or_disconnects (socket : Socket)
  (combat_id userToken : string) (w : World) :
  let w' := LobbyService.manageSocket socket combat_id userToken w in
  managedSoFar w' = managedSoFar w ∧
  managingCombats w' = managingCombats w ∧
  arrays w' = arrays w ∧
  dom (combats w') = dom (combats w) ∧
  ((∃ c user_id,
      CombatManager.get w combat_id = Some c ∧
      verifyAccessToken userToken = Some user_id ∧
      CombatConnection.isPlayerInCombat c user_id = false ∧
      effects w' = (effects w ++ [HandlePlayer combat_id user_id socket])%list ∧
      combats w'
      = <[combat_id := CombatConnection.handlePlayer c user_id socket]> (combats w))
   ∨
   (combats w' = combats w ∧
    ¬ (∃ c user_id, CombatManager.get w combat_id = Some c ∧
                    verifyAccessToken userToken = Some user_id ∧
                    CombatConnection.isPlayerInCombat c user_id = false) ∧
    ∃ notices,
      effects w' = (effects w ++ notices ++ [Disconnect socket])%list ∧
      Forall (λ e, is_notice e = true) notices)).
Proof.
  unfold LobbyService.manageSocket, CombatManager.get.
  destruct (combats w !! combat_id) as [c|] eqn:Hc.
  - destruct (verifyAccessToken userToken) as [user_id|] eqn:Htok.
    + destruct (CombatConnection.isPlayerInCombat c user_id) eqn:Hin.
      * cbn. split_and!; [done..|]. right. split_and!; [done| |].
        -- intros (c' & u & [= <-] & [= <-] & Hout). congruence.
        -- exists [ConsoleLog ["Player is in combat"]]. rewrite <-(assoc_L (++)).
           split; [done|]. by repeat constructor.
      * cbn. split_and!; [done..| |].
        -- apply dom_insert_lookup_L. by eexists.
        -- left. by exists c, user_id.
    + cbn. split_and!; [done..|]. right. split_and!; [done| |].
      * intros (c' & u & _ & [=] & _).
      * exists [Emit socket "invalid_token"; ConsoleLog ["Error verifying token"]].
        rewrite <-!(assoc_L (++)). split; [done|]. by repeat constructor.
  - cbn. split_and!; [done..|]. right. split_and!; [done| |].
    + intros (c' & u & [=] & _).
    + exists [ConsoleLog ["Combat not found"]]. rewrite <-(assoc_L (++)).
      split; [done|]. by repeat constructor.
Qed.

End admission_more.

(** ** Cooking and storing presets *)

Section cooking_more.
Import CookPreset CookFacts.
Context `{!ObjectIdCtor} `{!EntityLookup}.

Lemma cookPawns_Ok_iff pawns result :
  (∃ seed, cookPawns pawns result = Ok seed) ↔ Forall resolves pawns.
Proof.
  revert result. induction pawns as [|p pawns IH]; intros result.
  - split; [constructor|by eexists].
  - cbn [cookPawns]. rewrite Forall_cons. unfold cookPawn at 1, resolves at 1.
    destruct (decide (pawn_source p = embedded)) as [Hsrc|Hsrc].
    + destruct (getEntity (pawn_path p)) as [e|]; cbn.
      * rewrite IH. split; [by intros ?; split; [eexists|]|by intros [_ ?]].
      * split; [by intros [? ?]|]. intros [Hp _]. by destruct (Hp Hsrc).
    + cbn. rewrite IH. split; [by intros ?; split|by intros [_ ?]].
Qed.

Lemma not_resolves_dangling pawns :
  ¬ Forall resolves pawns →
  ∃ pawn, pawn ∈ pawns ∧ pawn_source pawn = embedded ∧ getEntity (pawn_path pawn) = None.
Proof.
  intros Hnot. apply not_Forall_Exists in Hnot; [|apply _].
  apply Exists_exists in Hnot as (pawn & Hin & Hp). exists pawn. split; [done|].
  unfold resolves in Hp. destruct (decide (pawn_source pawn = embedded)) as [Hsrc|Hsrc].
  - split; [done|]. destruct (getEntity (pawn_path pawn)) eqn:He; [|done].
    exfalso. apply Hp. by eexists.
  - exfalso. by apply Hp.
Qed.

Lemma cookPawns_entities pawns result seed :
  cookPawns pawns result = Ok seed →
  ∀ k, Js.assigned k (custom_entities seed)
       = if decide (Exists (embeds k) pawns) then getEntity k
         else Js.assigned k (custom_entities result).
Proof.
  revert result. induction pawns as [|p pawns IH]; intros result Hcook k.
  - cbn in Hcook. injection Hcook as <-. rewrite decide_False; [done|].
    by intros ?%Exists_nil.
  - cbn [cookPawns] in Hcook.
    destruct (cookPawn _ _ _ _ result) as [result'|] eqn:Hp; [|done]. cbn in Hcook.
    rewrite (IH _ Hcook k).
    destruct (decide (Exists (embeds k) pawns)) as [Hex|Hex].
    + rewrite decide_True; [done|]. by apply Exists_cons_tl.
    + unfold cookPawn in Hp.
      destruct (decide (pawn_source p = embedded)) as [Hsrc|Hsrc].
      * destruct (getEntity (pawn_path p)) as [e|] eqn:He; [|done].
        injection Hp as <-. cbn. rewrite assigned_assign.
        destruct (decide (k = pawn_path p)) as [->|Hk].
        -- rewrite decide_True; [done|]. by apply Exists_cons_hd.
        -- rewrite decide_False; [done|]. intros [[_ ?]|?]%Exists_cons; done.
      * injection Hp as <-. cbn. rewrite decide_False; [done|].
        intros [[? _]|?]%Exists_cons; done.
Qed.

Lemma pawn_on_elem square pawns p :
  pawn_on square pawns = Some p → p ∈ pawns ∧ pawn_square p = square.
Proof.
  unfold pawn_on. intros Hlast. apply last_Some_elem_of in Hlast.
  by apply list_elem_of_filter in Hlast as [? ?].
Qed.

Lemma pawn_on_unique square pawns p :
  NoDup (pawn_square <$> pawns) → p ∈ pawns → pawn_square p = square →
  pawn_on square pawns = Some p.
Proof.
  intros Hnd Hin Hsq. induction pawns as [|q pawns IH]; [by apply elem_of_nil in Hin|].
  cbn in Hnd. apply NoDup_cons in Hnd as [Hq Hnd]. rewrite pawn_on_cons.
  apply elem_of_cons in Hin as [<-|Hin].
  - destruct (pawn_on square pawns) as [r|] eqn:Hr.
    + apply pawn_on_elem in Hr as [Hr1 Hr2]. exfalso. apply Hq.
      apply list_elem_of_fmap. exists r. split; [congruence|done].
    + by rewrite decide_True.
  - by rewrite (IH Hnd Hin).
Qed.


(** X6. The outcomes of [cookPresetFromDB], case by case. A preset id
    the ObjectId constructor rejects: the error of the constructor. No
    preset stored under the id: null. A stored preset: a seed if every
    embedded pawn names an entity the store holds, NotFound otherwise. *)
Theorem cookPresetFromDB_outcomes (db : Storage) (combatPreset : string) :
  match new_ObjectId combatPreset with
  | None => cookPresetFromDB db combatPreset = Throw BSONError
  | Some _id =>
      match combat_presets db !! _id with
      | None => cookPresetFromDB db combatPreset = Ok None
      | Some presetFromDB =>
          (Forall resolves (field presetFromDB) ∧
           ∃ seed, cookPresetFromDB db combatPreset = Ok (Some seed)) ∨
          (¬ Forall resolves (field presetFromDB) ∧
           cookPresetFromDB db combatPreset = Throw (NotFound "Entity not found"))
      end
  end.
Proof.
  unfold cookPresetFromDB, DatabaseService.getCombatPreset,
    DatabaseService.Types_ObjectId, DatabaseService.findOne.
  destruct (new_ObjectId combatPreset) as [_id|]; [|done]. cbn.
  destruct (combat_presets db !! _id) as [presetFromDB|]; [|done].
  destruct (decide (Forall resolves (field presetFromDB))) as [Hall|Hnot].
  - left. split; [done|].
    apply (cookPawns_Ok_iff _ empty_preset) in Hall as [seed ->]. by exists seed.
  - right. split; [done|].
    destruct (not_resolves_dangling _ Hnot) as (pawn & Hin & Hsrc & Hnone).
    by rewrite (cookPawns_dangling _ _ pawn).
Qed.

Lemma entries_resolve (combatPreset : RequestedPreset) :
  Forall resolves (entry_pawn <$> map_to_list (req_field combatPreset))
  ↔ map_Forall (λ _ p, req_source p = embedded → is_Some (getEntity (path p)))
      (req_field combatPreset).
Proof.
  rewrite Forall_fmap, map_Forall_to_list. apply Forall_iff. by intros [square p].
Qed.

Lemma cookPawns_own_proto pawns result seed :
  cookPawns pawns result = Ok seed →
  Js.own (field_pawns seed) !! "__proto__"
  = Js.own (field_pawns result) !! "__proto__" ∧
  Js.own (custom_entities seed) !! "__proto__"
  = Js.own (custom_entities result) !! "__proto__".
Proof.
  revert result. induction pawns as [|p pawns IH]; intros result Hcook.
  - by injection Hcook as <-.
  - cbn [cookPawns] in Hcook.
    destruct (cookPawn _ _ _ _ result) as [result'|] eqn:Hp; [|done]. cbn in Hcook.
    destruct (IH _ Hcook) as [-> ->]. unfold cookPawn in Hp.
    destruct (decide (pawn_source p = embedded));
      [destruct (getEntity (pawn_path p)); [|done]|];
      injection Hp as <-; cbn; by rewrite ?own_assign_proto.
Qed.

(** What a run of the loop from the empty seed leaves under each key. *)
Lemma cooked_seed pawns seed :
  cookPawns pawns empty_preset = Ok seed →
  (∀ square, Js.assigned square (field_pawns seed)
             = to_field_pawn <$> pawn_on square pawns) ∧
  Js.own (field_pawns seed) !! "__proto__" = None ∧
  (∀ k, Js.assigned k (custom_entities seed)
        = if decide (Exists (embeds k) pawns) then getEntity k else None) ∧
  Js.own (custom_entities seed) !! "__proto__" = None.
Proof.
  intros Hcook. destruct (cookPawns_own_proto _ _ _ Hcook) as [Hf Hc].
  split_and!; [|done| |done].
  - intros square.
    destruct (cookPawns_outcome pawns empty_preset)
      as [Hthrow|(seed' & Hseed' & Hsq)]; [congruence|].
    rewrite Hcook in Hseed'. injection Hseed' as <-.
    rewrite Hsq. destruct (pawn_on square pawns); [done|]. apply assigned_empty.
  - intros k. rewrite (cookPawns_entities _ _ _ Hcook). case_decide; [done|].
    apply assigned_empty.
Qed.

Lemma request_seed_pawns (combatPreset : RequestedPreset) (seed : GamePreset) :
  cookPawns (entry_pawn <$> map_to_list (req_field combatPreset)) empty_preset
  = Ok seed →
  Js.own (field_pawns seed)
  = request_field_pawn <$> delete "__proto__" (req_field combatPreset) ∧
  Js.proto (field_pawns seed)
  = request_field_pawn <$> req_field combatPreset !! "__proto__".
Proof.
  intros Hseed. destruct (cooked_seed _ _ Hseed) as (Hsq & Hown & _).
  assert (Hkey : ∀ square, Js.assigned square (field_pawns seed)
                           = request_field_pawn <$> req_field combatPreset !! square).
  { intros square. rewrite Hsq.
    rewrite <-(list_to_map_to_list (req_field combatPreset)) at 2.
    apply pawn_on_entries, NoDup_fst_map_to_list. }
  split.
  - apply map_eq. intros square. rewrite (own_lookup _ _ Hown), lookup_fmap.
    case_decide as Hk.
    + by rewrite Hk, lookup_delete_eq.
    + by rewrite lookup_delete_ne, Hkey.
  - by rewrite proto_assigned, Hkey.
Qed.

(** X7. [cookPresetFromRequest] has two outcomes. If every embedded pawn
    of the payload names an entity the store holds, it returns a seed
    whose [field_pawns] have as own properties the pawns of the payload's
    keys other than "__proto__", as given; the pawn under the key
    "__proto__", if the payload has one, is not an entry of the seed but
    the prototype of its [field_pawns]. Otherwise it fails with NotFound. *)
Theorem cookPresetFromRequest_outcomes (combatPreset : RequestedPreset) :
  (map_Forall (λ _ p, req_source p = embedded → is_Some (getEntity (path p)))
     (req_field combatPreset) ∧
   ∃ seed, cookPresetFromRequest combatPreset = Ok seed ∧
           Js.own (field_pawns seed)
           = request_field_pawn <$> delete "__proto__" (req_field combatPreset) ∧
           Js.proto (field_pawns seed)
           = request_field_pawn <$> req_field combatPreset !! "__proto__") ∨
  (¬ map_Forall (λ _ p, req_source p = embedded → is_Some (getEntity (path p)))
       (req_field combatPreset) ∧
   cookPresetFromRequest combatPreset = Throw (NotFound "Entity not found")).
Proof.
  unfold cookPresetFromRequest. rewrite cookEntries_cookPawns, <-entries_resolve.
  destruct (decide (Forall resolves
                      (entry_pawn <$> map_to_list (req_field combatPreset))))
    as [Hall|Hnot].
  - left. split; [done|].
    apply (cookPawns_Ok_iff _ empty_preset) in Hall as [seed Hseed].
    exists seed. split; [done|]. by apply request_seed_pawns.
  - right. split; [done|].
    destruct (not_resolves_dangling _ Hnot) as (pawn & Hin & Hsrc & Hnone).
    by rewrite (cookPawns_dangling _ _ pawn).
Qed.

(** X8. What a seed returned by [cookPresetFromDB] holds. A square other
    than "__proto__" holds the last stored pawn that claims it, and
    "__proto__" is never an own key; the last pawn stored for the square
    "__proto__", if any, is the prototype of [field_pawns]. Every embedded
    pawn of the stored preset has its stored definition in
    [custom_entities], as an own entry under its path, or as the
    prototype if the path is "__proto__". And [custom_entities] holds
    nothing but stored definitions of embedded pawns of the preset. *)
Theorem cooked_preset_contents (db : Storage) (combatPreset : string)
  (seed : GamePreset) :
  cookPresetFromDB db combatPreset = Ok (Some seed) →
  ∃ presetFromDB,
    DatabaseService.getCombatPreset db combatPreset = Ok (Some presetFromDB) ∧
    (∀ square, Js.own (field_pawns seed) !! square
               = if decide (square = "__proto__") then None
                 else to_field_pawn <$> pawn_on square (field presetFromDB)) ∧
    Js.proto (field_pawns seed)
    = to_field_pawn <$> pawn_on "__proto__" (field presetFromDB) ∧
    (∀ pawn, pawn ∈ field presetFromDB → pawn_source pawn = embedded →
       ∃ e, getEntity (pawn_path pawn) = Some e ∧
            (pawn_path pawn ≠ "__proto__" →
             Js.own (custom_entities seed) !! pawn_path pawn = Some e) ∧
            (pawn_path pawn = "__proto__" →
             Js.proto (custom_entities seed) = Some e)) ∧
    (∀ k e, Js.own (custom_entities seed) !! k = Some e →
            k ≠ "__proto__" ∧ getEntity k = Some e ∧
            ∃ pawn, pawn ∈ field presetFromDB ∧ embeds k pawn) ∧
    (∀ e, Js.proto (custom_entities seed) = Some e →
          getEntity "__proto__" = Some e ∧
          ∃ pawn, pawn ∈ field presetFromDB ∧ embeds "__proto__" pawn).
Proof.
  unfold cookPresetFromDB.
  destruct (DatabaseService.getCombatPreset db combatPreset) as [[presetFromDB|]|];
    cbn; [|done..].
  destruct (cookPawns (field presetFromDB) empty_preset) as [seed'|] eqn:Hcook;
    cbn; [|done].
  intros [= ->]. exists presetFromDB. split; [done|].
  destruct (cooked_seed _ _ Hcook) as (Hsq & Hown & Hent & Hown').
  assert (Hall : Forall resolves (field presetFromDB))
    by (apply (cookPawns_Ok_iff _ empty_preset); by eexists).
  split_and!.
  - intros square. rewrite (own_lookup _ _ Hown). by rewrite Hsq.
  - by rewrite proto_assigned, Hsq.
  - intros pawn Hin Hsrc. rewrite Forall_forall in Hall.
    destruct (Hall _ Hin Hsrc) as [e He]. exists e. split; [done|].
    assert (Hk : Js.assigned (pawn_path pawn) (custom_entities seed) = Some e).
    { rewrite Hent, decide_True; [done|]. apply Exists_exists. by exists pawn. }
    split.
    + intros Hne. by rewrite (own_lookup _ _ Hown'), decide_False.
    + intros Heq. by rewrite proto_assigned, <-Heq.
  - intros k e. rewrite (own_lookup _ _ Hown'). case_decide as Hk; [done|].
    rewrite Hent. case_decide as Hex; [|done].
    intros He. split_and!; [done..|].
    apply Exists_exists in Hex as (pawn & ? & ?). by exists pawn.
  - intros e. rewrite proto_assigned, Hent. case_decide as Hex; [|done].
    intros He. split; [done|].
    apply Exists_exists in Hex as (pawn & ? & ?). by exists pawn.
Qed.

(** X9. The definitions a seed returned by [cookPresetFromRequest]
    carries. Every embedded pawn of the payload has its stored definition
    in [custom_entities], as an own entry under its path, or as the
    prototype if the path is "__proto__". And [custom_entities] holds
    nothing but stored definitions of embedded pawns of the payload. *)
Theorem cooked_request_contents (combatPreset : RequestedPreset) (seed : GamePreset) :
  cookPresetFromRequest combatPreset = Ok seed →
  (∀ square p, req_field combatPreset !! square = Some p →
               req_source p = embedded →
               ∃ e, getEntity (path p) = Some e ∧
                    (path p ≠ "__proto__" →
                     Js.own (custom_entities seed) !! path p = Some e) ∧
                    (path p = "__proto__" →
                     Js.proto (custom_entities seed) = Some e)) ∧
  (∀ k e, Js.own (custom_entities seed) !! k = Some e →
          k ≠ "__proto__" ∧ getEntity k = Some e ∧
          ∃ square p, req_field combatPreset !! square = Some p ∧
                      req_source p = embedded ∧ path p = k) ∧
  (∀ e, Js.proto (custom_entities seed) = Some e →
        getEntity "__proto__" = Some e ∧
        ∃ square p, req_field combatPreset !! square = Some p ∧
                    req_source p = embedded ∧ path p = "__proto__").
Proof.
  intros Hcook.
  unfold cookPresetFromRequest in Hcook. rewrite cookEntries_cookPawns in Hcook.
  destruct (cooked_seed _ _ Hcook) as (_ & _ & Hent & Hown).
  assert (Hall : map_Forall
                   (λ _ p, req_source p = embedded → is_Some (getEntity (path p)))
                   (req_field combatPreset)).
  { apply entries_resolve, (cookPawns_Ok_iff _ empty_preset). by eexists. }
  assert (Hentry : ∀ k,
            Exists (embeds k) (entry_pawn <$> map_to_list (req_field combatPreset)) →
            ∃ square p, req_field combatPreset !! square = Some p ∧
                        req_source p = embedded ∧ path p = k).
  { intros k (pawn & Hin & Hsrc & Hpath)%Exists_exists.
    apply list_elem_of_fmap in Hin as ([square p] & -> & Hin).
    apply elem_of_map_to_list in Hin. by exists square, p. }
  split_and!.
  - intros square p Hp Hsrc. destruct (Hall _ _ Hp Hsrc) as [e He].
    exists e. split; [done|].
    assert (Hk : Js.assigned (path p) (custom_entities seed) = Some e).
    { rewrite Hent, decide_True; [done|].
      apply Exists_exists. exists (entry_pawn (square, p)). split; [|done].
      apply list_elem_of_fmap. exists (square, p). split; [done|].
      by apply elem_of_map_to_list. }
    split.
    + intros Hne. by rewrite (own_lookup _ _ Hown), decide_False.
    + intros Heq. by rewrite proto_assigned, <-Heq.
  - intros k e. rewrite (own_lookup _ _ Hown). case_decide as Hk; [done|].
    rewrite Hent. case_decide as Hex; [|done].
    intros He. split_and!; [done..|]. by apply Hentry.
  - intros e. rewrite proto_assigned, Hent. case_decide as Hex; [|done].
    intros He. split; [done|]. by apply Hentry.
Qed.


Lemma checkSquares_outcome pawns :
  DatabaseService.checkSquares pawns []
  = if decide (NoDup (pawn_square <$> pawns)) then Ok ()
    else Throw (BadRequest "Multiple pawns on the same square").
Proof.
  case_decide.
  - by apply checkSquares_distinct.
  - by apply checkSquares_shared; [constructor|].
Qed.

(** X10. The outcomes of [createNewCombatPreset]. With two pawns on one
    square: BadRequest, nothing stored. With distinct squares: the preset
    is stored under the new identifier, which is returned, if the save
    succeeds; InternalServerError, nothing stored, if it does not. *)
Theorem createNewCombatPreset_outcomes (pawns : list PresetPawn) (_id : ObjectId)
  (saved : bool) (db : Storage) :
  DatabaseService.createNewCombatPreset pawns _id saved db
  = if decide (NoDup (pawn_square <$> pawns)) then
      if saved
      then (Ok _id,
            DatabaseService.set_combat_presets (insert _id {| field := pawns |}) db)
      else (Throw InternalServerError, db)
    else (Throw (BadRequest "Multiple pawns on the same square"), db).
Proof.
  unfold DatabaseService.createNewCombatPreset. rewrite checkSquares_outcome.
  by case_decide.
Qed.

Lemma NoDup_squares_filter (P : PresetPawn → Prop) `{!∀ p, Decision (P p)}
  (pawns : list PresetPawn) :
  NoDup (pawn_square <$> pawns) → NoDup (pawn_square <$> filter P pawns).
Proof.
  induction pawns as [|p pawns IH]; intros Hnd; [constructor|].
  cbn in Hnd. apply NoDup_cons in Hnd as [Hp Hnd]. rewrite filter_cons.
  case_decide; [|by apply IH]. cbn. apply NoDup_cons. split; [|by apply IH].
  intros (q & Hq & Hin)%list_elem_of_fmap. apply Hp.
  apply list_elem_of_fmap. exists q. split; [done|].
  by apply list_elem_of_filter in Hin as [_ ?].
Qed.

Lemma distinct_squares_seed pawns seed :
  NoDup (pawn_square <$> pawns) →
  (∀ square, Js.own (field_pawns seed) !! square
             = if decide (square = "__proto__") then None
               else to_field_pawn <$> pawn_on square pawns) →
  Js.own (field_pawns seed)
  = list_to_map ((λ p, (pawn_square p, to_field_pawn p))
                   <$> filter (λ p, pawn_square p ≠ "__proto__") pawns).
Proof.
  intros Hnd Hsq. apply map_eq. intros square. rewrite Hsq.
  set (kept := filter (λ p, pawn_square p ≠ "__proto__") pawns).
  assert (Hkeys : ((λ p, (pawn_square p, to_field_pawn p)) <$> kept).*1
                  = pawn_square <$> kept).
  { rewrite <-list_fmap_compose. by apply list_fmap_ext. }
  assert (Hnd' : NoDup (pawn_square <$> kept)) by by apply NoDup_squares_filter.
  symmetry. case_decide as Hk.
  - apply not_elem_of_list_to_map_1. rewrite Hkeys.
    intros (p & -> & Hin)%list_elem_of_fmap.
    by apply list_elem_of_filter in Hin as [? _].
  - destruct (pawn_on square pawns) as [p|] eqn:Hp; cbn.
    + apply pawn_on_elem in Hp as [Hin <-].
      apply elem_of_list_to_map; [by rewrite Hkeys|].
      apply list_elem_of_fmap. exists p. split; [done|].
      by apply list_elem_of_filter.
    + apply not_elem_of_list_to_map_1. rewrite Hkeys.
      intros (p & -> & Hin)%list_elem_of_fmap.
      apply list_elem_of_filter in Hin as [_ Hin].
      by rewrite (pawn_on_unique _ _ p) in Hp.
Qed.

(** X11. A preset that [createNewCombatPreset] has stored is read back by
    [getCombatPreset] as it was given, and, if its embedded pawns name
    stored entities, [cookPresetFromDB] returns a seed that places every
    one of its pawns: a pawn on a square other than "__proto__" is the
    own entry of its square, a pawn on the square "__proto__" is the
    prototype of [field_pawns], and the seed has as many own squares as
    the preset has pawns off "__proto__". *)
Theorem stored_preset_cooks_every_pawn (pawns : list PresetPawn) (_id : ObjectId)
  (saved : bool) (db db' : Storage) (combatPreset : string) :
  DatabaseService.createNewCombatPreset pawns _id saved db = (Ok _id, db') →
  new_ObjectId combatPreset = Some _id →
  Forall resolves pawns →
  DatabaseService.getCombatPreset db' combatPreset = Ok (Some {| field := pawns |}) ∧
  ∃ seed,
    cookPresetFromDB db' combatPreset = Ok (Some seed) ∧
    (∀ pawn, pawn ∈ pawns → pawn_square pawn ≠ "__proto__" →
             Js.own (field_pawns seed) !! pawn_square pawn
             = Some (to_field_pawn pawn)) ∧
    (∀ pawn, pawn ∈ pawns → pawn_square pawn = "__proto__" →
             Js.proto (field_pawns seed) = Some (to_field_pawn pawn)) ∧
    size (Js.own (field_pawns seed))
    = length (filter (λ p, pawn_square p ≠ "__proto__") pawns).
Proof.
  unfold DatabaseService.createNewCombatPreset. rewrite checkSquares_outcome.
  intros Hstored Hid Hall.
  destruct (decide (NoDup (pawn_square <$> pawns))) as [Hnd|]; [|done].
  destruct saved; [|done]. injection Hstored as <-.
  assert (Hget : DatabaseService.getCombatPreset
                   (DatabaseService.set_combat_presets
                      (insert _id {| field := pawns |}) db) combatPreset
                 = Ok (Some {| field := pawns |})).
  { unfold DatabaseService.getCombatPreset, DatabaseService.Types_ObjectId,
      DatabaseService.findOne. rewrite Hid. cbn. by rewrite lookup_insert_eq. }
  split; [done|].
  unfold cookPresetFromDB. rewrite Hget. cbn.
  apply (cookPawns_Ok_iff _ empty_preset) in Hall as [seed Hseed].
  rewrite Hseed. cbn. exists seed. split; [done|].
  destruct (cooked_seed _ _ Hseed) as (Hsq & Hown & _).
  assert (Hsq' : ∀ square, Js.own (field_pawns seed) !! square
                           = if decide (square = "__proto__") then None
                             else to_field_pawn <$> pawn_on square pawns).
  { intros square. by rewrite (own_lookup _ _ Hown), Hsq. }
  split_and!.
  - intros pawn Hin Hne. by rewrite Hsq', decide_False, (pawn_on_unique _ _ pawn).
  - intros pawn Hin Heq.
    by rewrite proto_assigned, Hsq, <-Heq, (pawn_on_unique _ _ pawn).
  - rewrite (distinct_squares_seed pawns seed Hnd Hsq').
    rewrite map_size_list_to_map, length_fmap; [done|].
    rewrite <-list_fmap_compose. by apply NoDup_squares_filter.
Qed.

End cooking_more.

(** ** Lobbies and their rosters *)

Section database_updates.
Import DatabaseUpdates.
Context `{!ObjectIdCtor}.

(** X12. The outcomes of [createNewLobby]. On success the organiser is a
    stored user, the new lobby is stored under the returned identifier
    with the organiser as its only player, under the organiser's handle
    and without character, and [getLobby] reads it back; users are
    untouched. On any failure nothing is stored. *)
Theorem createNewLobby_outcome (lobbyName gm_id : string) (_id : ObjectId)
  (saved : bool) (db : Storage) :
  let r := createNewLobby lobbyName gm_id _id saved db in
  match r.1 with
  | Ok _id' =>
      _id' = _id ∧ users r.2 = users db ∧
      ∃ gm,
        DatabaseService.getUser db gm_id = Ok (Some gm) ∧
        ∀ lobbyId,
          new_ObjectId lobbyId = Some _id → lobbyId ≠ "" →
          DatabaseService.getLobby r.2 lobbyId
          = Ok (Some {| lobby_name := lobbyName; lobby_gm_id := gm_id;
                        lobby_players :=
                          [{| userId := gm_id; nickname := handle gm;
                              characterId := None |}];
                        relatedPresets := [] |})
  | Throw e =>
      r.2 = db ∧
      (e = BSONError ∨ e = NotFound "User not found" ∨ e = InternalServerError)
  end.
Proof.
  unfold createNewLobby.
  destruct (DatabaseService.getUser db gm_id) as [[gm|]|e] eqn:Hgm; cbn;
    [|by eauto|].
  - destruct saved; cbn; [|by eauto].
    split_and!; [done..|]. exists gm. split; [done|]. intros lobbyId Hid Hne.
    unfold DatabaseService.getLobby, DatabaseService.Types_ObjectId,
      DatabaseService.findOne.
    rewrite decide_False, Hid by done. cbn. by rewrite lookup_insert_eq.
  - split; [done|]. left.
    unfold DatabaseService.getUser, DatabaseService.Types_ObjectId in Hgm.
    destruct (new_ObjectId gm_id); cbn in Hgm; congruence.
Qed.

(** X13. The outcomes of [addPlayerToLobby]. On success the user and the
    lobby are stored, and the lobby's roster is the old roster followed by
    the new player, without character; [getLobby] reads the lobby back so;
    nothing else in the store changes. On failure the store is unchanged,
    and the error is the constructor's, "User not found" or "Lobby not
    found". *)
Theorem addPlayerToLobby_outcome (lobbyId userId nickname : string) (db : Storage) :
  let r := addPlayerToLobby lobbyId userId nickname db in
  match r.1 with
  | Ok _ =>
      ∃ _id lobby,
        lobbyId ≠ "" ∧ new_ObjectId lobbyId = Some _id ∧
        lobbies db !! _id = Some lobby ∧
        is_Some (new_ObjectId userId ≫= λ u, users db !! u) ∧
        r.2 = set_lobbies
                (insert _id
                   (set_players
                      (lobby_players lobby
                       ++ [{| userId := userId; nickname := nickname;
                              characterId := None |}])%list lobby)) db ∧
        DatabaseService.getLobby r.2 lobbyId
        = Ok (Some (set_players
                      (lobby_players lobby
                       ++ [{| userId := userId; nickname := nickname;
                              characterId := None |}])%list lobby))
  | Throw e =>
      r.2 = db ∧
      (e = BSONError ∨ e = NotFound "User not found" ∨ e = NotFound "Lobby not found")
  end.
Proof.
  unfold addPlayerToLobby, DatabaseService.getUser, DatabaseService.getLobby,
    DatabaseService.Types_ObjectId, DatabaseService.findOne.
  destruct (new_ObjectId userId) as [u|] eqn:Hu; cbn; [|by eauto].
  destruct (users db !! u) as [user|] eqn:Huser; cbn; [|by eauto].
  destruct (decide (lobbyId = "")) as [->|Hne]; cbn; [by eauto|].
  destruct (new_ObjectId lobbyId) as [_id|] eqn:Hid; cbn; [|by eauto].
  destruct (lobbies db !! _id) as [lobby|] eqn:Hlobby; cbn; [|by eauto].
  exists _id, lobby. split_and!; [done..|by eexists| |].
  - unfold set_lobbies. f_equal. apply map_eq. intros k.
    rewrite lookup_alter, lookup_insert. unfold ObjectId in *.
    destruct (decide (_id = k)) as [<-|]; [by rewrite Hlobby|reflexivity].
  - f_equal. etrans; [apply lookup_alter_eq|]. unfold ObjectId in *. by rewrite Hlobby.
Qed.

(** X14. [addPlayerToLobby] does not look at the roster: when it succeeds
    for a user, it succeeds again for the same user, and the roster then
    ends with two entries for that user. *)
Theorem addPlayerToLobby_twice (lobbyId userId nickname nickname' : string)
  (db db1 : Storage) (lobby : LobbyClass) :
  DatabaseService.getLobby db lobbyId = Ok (Some lobby) →
  addPlayerToLobby lobbyId userId nickname db = (Ok (), db1) →
  ∃ db2 lobby2,
    addPlayerToLobby lobbyId userId nickname' db1 = (Ok (), db2) ∧
    DatabaseService.getLobby db2 lobbyId = Ok (Some lobby2) ∧
    lobby_players lobby2
    = (lobby_players lobby
       ++ [{| userId := userId; nickname := nickname; characterId := None |};
           {| userId := userId; nickname := nickname'; characterId := None |}])%list.
Proof.
  unfold addPlayerToLobby, DatabaseService.getUser, DatabaseService.getLobby,
    DatabaseService.Types_ObjectId, DatabaseService.findOne.
  destruct (decide (lobbyId = "")) as [->|Hne]; [done|].
  destruct (new_ObjectId lobbyId) as [_id|] eqn:Hid; cbn; [|done].
  intros [= Hlobby].
  destruct (new_ObjectId userId) as [u|] eqn:Hu; cbn; [|done].
  destruct (users db !! u) as [user|] eqn:Huser; cbn; [|done].
  unfold ObjectId in *. rewrite Hlobby. cbn. intros [= <-]. cbn.
  rewrite Huser. cbn. unfold ObjectId in *. rewrite lookup_alter_eq, Hlobby. cbn.
  eexists _, _. split; [done|]. cbn. unfold ObjectId in *.
  rewrite !lookup_alter_eq, Hlobby. cbn.
  split; [done|]. cbn. by rewrite <-(assoc_L (++)).
Qed.

End database_updates.

(** ** The lobby view *)

Section lobby_views.
Import LobbyViews.
Context `{!ObjectIdCtor} `{!EntityLookup}.

Lemma playersLoop_Ok db roster players result :
  playersLoop db roster players = Ok result →
  ∃ cards, result = (players ++ cards)%list ∧ Forall2 (shows db) roster cards.
Proof.
  revert players. induction roster as [|p roster IH]; intros players Hloop.
  - injection Hloop as <-. exists []. by rewrite app_nil_r.
  - cbn [playersLoop] in Hloop.
    destruct (DatabaseService.getUser db (userId p)) as [user|] eqn:Huser; [|done].
    cbn in Hloop. apply IH in Hloop as (cards & -> & Hcards).
    eexists (_ :: cards). rewrite <-(assoc_L (++)). split; [done|].
    constructor; [|done]. split_and!; [done..|by exists user|].
    cbn. by destruct (truthy (characterId p)).
Qed.

Lemma getUser_Throw db userId e :
  DatabaseService.getUser db userId = Throw e → e = BSONError.
Proof.
  unfold DatabaseService.getUser, DatabaseService.Types_ObjectId.
  destruct (new_ObjectId userId); cbn; [done|by intros [= <-]].
Qed.

Lemma getLobby_Throw db lobbyId e :
  DatabaseService.getLobby db lobbyId = Throw e → e = BSONError.
Proof.
  unfold DatabaseService.getLobby, DatabaseService.Types_ObjectId.
  case_decide; [done|]. destruct (new_ObjectId lobbyId); cbn; [done|by intros [= <-]].
Qed.

Lemma playersLoop_Throw db roster players e :
  playersLoop db roster players = Throw e → e = BSONError.
Proof.
  revert players. induction roster as [|p roster IH]; intros players; [done|].
  cbn [playersLoop].
  destruct (DatabaseService.getUser db (userId p)) as [user|] eqn:Huser; cbn.
  - apply IH.
  - intros [= <-]. by apply getUser_Throw in Huser.
Qed.

Lemma activePlayer_Throw db lobby playerId e :
  LobbyService.activePlayer db lobby playerId = Throw e → e = BSONError.
Proof.
  unfold LobbyService.activePlayer.
  destruct (DatabaseService.getUser db playerId) as [user|] eqn:Huser; cbn; [done|].
  intros [= <-]. by apply getUser_Throw in Huser.
Qed.

Lemma mapM_activePlayer_Throw db lobby playerIds e :
  mapM (LobbyService.activePlayer db lobby) playerIds = Throw e → e = BSONError.
Proof.
  induction playerIds as [|playerId playerIds IH]; [done|]. cbn [mapM].
  destruct (LobbyService.activePlayer db lobby playerId) as [y|] eqn:Hy.
  - destruct (mapM _ playerIds); [done|]. intros [= <-]. by apply IH.
  - intros [= <-]. by apply activePlayer_Throw in Hy.
Qed.

Lemma combatInfoLoop_Throw w db lobby keys combatInfo e :
  LobbyService.combatInfoLoop w db lobby keys combatInfo = Throw e → e = BSONError.
Proof.
  revert combatInfo. induction keys as [|combat_id keys IH]; intros combatInfo; [done|].
  cbn [LobbyService.combatInfoLoop].
  destruct (CombatManager.get w combat_id) as [combat|]; [|apply IH].
  destruct (mapM _ _) as [activePlayers|] eqn:Hmap; cbn; [apply IH|].
  intros [= <-]. by apply mapM_activePlayer_Throw in Hmap.
Qed.

Lemma playersLoop_Ok_iff db roster players :
  (∃ cards, playersLoop db roster players = Ok cards)
  ↔ Forall (λ p, is_Some (new_ObjectId (userId p))) roster.
Proof.
  revert players. induction roster as [|p roster IH]; intros players.
  - split; [constructor|by eexists].
  - cbn [playersLoop]. rewrite Forall_cons.
    unfold DatabaseService.getUser, DatabaseService.Types_ObjectId.
    destruct (new_ObjectId (userId p)) as [_id|]; cbn.
    + rewrite IH. split; [by intros ?; split; [eexists|]|by intros [_ ?]].
    + split; [by intros [? ?]|]. by intros [[? ?] _].
Qed.

(** X15. [getLobbyInfo] fails only with the error the ObjectId
    constructor throws on a malformed identifier. When [getLobby] finds
    no lobby it answers with the "Lobby not found" placeholder. For a
    stored lobby it returns an answer exactly when its combat loop
    succeeds and the constructor accepts the user id of every roster
    entry: whether the users, characters and entities that the ids name
    are stored plays no part. *)
Theorem getLobbyInfo_fails_only_on_malformed_id (w : World) (db : Storage)
  (lobby_id user_id : string) (mainCharacter : option string) :
  (∀ e, getLobbyInfo w db lobby_id user_id mainCharacter = Throw e → e = BSONError) ∧
  (DatabaseService.getLobby db lobby_id = Ok None →
   getLobbyInfo w db lobby_id user_id mainCharacter
   = Ok {| li_name := "Lobby not found"; li_lobbyId := lobby_id; li_combats := [];
           li_gm := ""; li_players := []; li_layout := "default";
           li_controlledEntity := None |}) ∧
  (∀ lobby,
     DatabaseService.getLobby db lobby_id = Ok (Some lobby) →
     (∃ info, getLobbyInfo w db lobby_id user_id mainCharacter = Ok info)
     ↔ (∃ combats, LobbyService.getLobbyInfo_combats w db lobby_id = Ok combats) ∧
       Forall (λ p, is_Some (new_ObjectId (userId p))) (lobby_players lobby)).
Proof.
  split_and!.
  - intros e. unfold getLobbyInfo.
    destruct (DatabaseService.getLobby db lobby_id) as [[lobby|]|] eqn:Hlobby; cbn;
      [|done|intros [= <-]; by apply getLobby_Throw in Hlobby].
    destruct (match managingCombats w !! lobby_id with
              | Some combats => _ | None => _ end) as [combatInfo|] eqn:Hcombats; cbn.
    + destruct (match truthy mainCharacter with Some _ => _ | None => _ end)
        as [name _id].
      destruct (playersLoop db (lobby_players lobby) []) as [players|] eqn:Hplayers;
        cbn; [done|].
      intros [= <-]. by apply playersLoop_Throw in Hplayers.
    + intros [= <-]. destruct (managingCombats w !! lobby_id); [|done].
      by apply combatInfoLoop_Throw in Hcombats.
  - unfold getLobbyInfo. by intros ->.
  - intros lobby Hlobby. rewrite <-(playersLoop_Ok_iff db _ []).
    unfold getLobbyInfo, LobbyService.getLobbyInfo_combats. rewrite Hlobby. cbn.
    destruct (match managingCombats w !! lobby_id with
              | Some combats => _ | None => _ end) as [combatInfo|]; cbn.
    + destruct (match truthy mainCharacter with Some _ => _ | None => _ end)
        as [name _id].
      destruct (playersLoop db (lobby_players lobby) []) as [players|]; cbn.
      * split; [intros _; split; by eexists|intros _; by eexists].
      * split; [by intros [? ?]|by intros [_ [? ?]]].
    + split; [by intros [? ?]|by intros [[? ?] _]].
Qed.

(** X16. What [getLobbyInfo] answers for a stored lobby. Name, id and
    organiser are the lobby's; the layout is "gm" exactly for the
    organiser; the combats are those of the combat loop; the players
    mirror the roster one to one and in order; and the controlled entity
    is given exactly when [mainCharacter] is truthy and names a stored
    entity, with that entity's descriptor as its name, so that the
    placeholder "Character not found" is never part of an answer. *)
Theorem getLobbyInfo_answer (w : World) (db : Storage)
  (lobby_id user_id : string) (mainCharacter : option string)
  (lobby : LobbyClass) (info : LobbyInfo) :
  DatabaseService.getLobby db lobby_id = Ok (Some lobby) →
  getLobbyInfo w db lobby_id user_id mainCharacter = Ok info →
  li_name info = lobby_name lobby ∧
  li_lobbyId info = lobby_id ∧
  li_gm info = lobby_gm_id lobby ∧
  li_layout info = (if decide (user_id = lobby_gm_id lobby) then "gm" else "default") ∧
  LobbyService.getLobbyInfo_combats w db lobby_id = Ok (li_combats info) ∧
  Forall2 (shows db) (lobby_players lobby) (li_players info) ∧
  li_controlledEntity info
  = (m ← truthy mainCharacter; entity ← getEntity m;
     Some {| ce_name := descriptor entity; ce_id := m |}).
Proof.
  unfold getLobbyInfo, LobbyService.getLobbyInfo_combats. intros ->. cbn.
  destruct (match managingCombats w !! lobby_id with
            | Some combats => _ | None => _ end) as [combatInfo|] eqn:Hcombats;
    cbn; [|done].
  destruct (playersLoop db (lobby_players lobby) []) as [players|] eqn:Hplayers.
  2:{ by destruct (match truthy mainCharacter with Some _ => _ | None => _ end). }
  apply playersLoop_Ok in Hplayers as (cards & -> & Hcards).
  destruct (truthy mainCharacter) as [m|] eqn:Hm; cbn.
  - destruct (getEntity m) as [entity|]; cbn; intros [= <-]; cbn;
      (split_and!; [done..|]); [|done].
    destruct mainCharacter as [s|]; [|done]. cbn in Hm. case_decide; [done|].
    injection Hm as <-. cbn. by rewrite decide_False.
  - intros [= <-]. cbn. by split_and!.
Qed.

Lemma find_roster_snoc (roster : list PlayerClass) (player_id : string)
  (p : PlayerClass) :
  (∀ q, q ∈ roster → userId q ≠ player_id) → userId p = player_id →
  find (λ q, bool_decide (userId q = player_id)) (roster ++ [p])%list = Some p.
Proof.
  intros Hnew Hp. induction roster as [|q roster IH]; cbn.
  - by rewrite bool_decide_eq_true_2.
  - rewrite bool_decide_eq_false_2.
    + apply IH. intros q' Hq'. apply Hnew. apply elem_of_cons. by right.
    + apply Hnew. apply elem_of_cons. by left.
Qed.

(** X17. A user who has just been added to a lobby in which they were not
    listed has no character there: [getMyCharacterInfo] fails with
    BadRequest "Player has no character". *)
Theorem added_player_has_no_character {CharacterInfo : Type}
  (characterModelToInfo : CharacterClass → CharacterInfo)
  (lobbyId userId' nickname : string) (db db' : Storage) (lobby : LobbyClass) :
  DatabaseService.getLobby db lobbyId = Ok (Some lobby) →
  (∀ p, p ∈ lobby_players lobby → userId p ≠ userId') →
  DatabaseUpdates.addPlayerToLobby lobbyId userId' nickname db = (Ok (), db') →
  getMyCharacterInfo characterModelToInfo db' lobbyId userId'
  = Throw (BadRequest "Player has no character").
Proof.
  intros Hlobby Hnew. unfold DatabaseUpdates.addPlayerToLobby. rewrite Hlobby.
  unfold DatabaseService.getLobby, DatabaseService.Types_ObjectId,
    DatabaseService.findOne in Hlobby.
  destruct (decide (lobbyId = "")) as [->|Hne]; [done|].
  destruct (new_ObjectId lobbyId) as [_id|] eqn:Hid; cbn in Hlobby; [|done].
  injection Hlobby as Hlobby.
  destruct (DatabaseService.getUser db userId') as [[user|]|]; [|done..].
  unfold DatabaseService.Types_ObjectId. rewrite Hid. intros [= <-].
  unfold getMyCharacterInfo, DatabaseService.getLobby,
    DatabaseService.Types_ObjectId, DatabaseService.findOne.
  rewrite decide_False, Hid by done. cbn. unfold ObjectId in *.
  rewrite lookup_alter_eq, Hlobby. cbn.
  by rewrite find_roster_snoc.
Qed.

End lobby_views.

(** ** Order of pawns, and ids after removal *)

Section order_and_retirement.
Import CookPreset.
Context `{!ObjectIdCtor} `{!EntityLookup} `{!AuthService}.

(** X18. For stored presets whose pawns stand on distinct squares, the
    order in which the pawns are listed does not matter: two presets that
    list the same pawns in different orders cook to the same result, seed
    or error. *)
Theorem stored_pawn_order_is_irrelevant (db db' : Storage)
  (combatPreset combatPreset' : string) (presetFromDB presetFromDB' : CombatClass) :
  DatabaseService.getCombatPreset db combatPreset = Ok (Some presetFromDB) →
  DatabaseService.getCombatPreset db' combatPreset' = Ok (Some presetFromDB') →
  field presetFromDB ≡ₚ field presetFromDB' →
  NoDup (pawn_square <$> field presetFromDB) →
  cookPresetFromDB db combatPreset = cookPresetFromDB db' combatPreset'.
Proof.
  intros Hdb Hdb' Hperm Hnd. unfold cookPresetFromDB. rewrite Hdb, Hdb'. cbn.
  by rewrite (cookPawns_Permutation _ _ _ Hperm Hnd).
Qed.

(** X19. Once a session's removal callback has run, its id is retired for
    good: in every state the services reach afterwards, [get] of the id is
    absent, no lobby lists the id, and running the callback again changes
    nothing and raises no error. *)
Theorem retired_id_stays_retired (w w2 : World) (id : string) (c : CombatConnection) :
  reachable w → combats w !! id = Some c →
  rtc step (CombatManager.run_removeSelf (removeSelf c) w).1 w2 →
  (managedSoFar w2 < Js.MAX_EXACT)%N →
  CombatManager.get w2 id = None ∧
  (∀ lobby_id, id ∉ LobbyService.getActiveCombats w2 lobby_id) ∧
  CombatManager.run_removeSelf (removeSelf c) w2 = (w2, None).
Proof.
  intros Hreach Hc Hsteps Hsafe.
  assert (Hstep1 : step w (CombatManager.run_removeSelf (removeSelf c) w).1)
    by by apply (step_removeSelf id).
  assert (Hreach1 : reachable (CombatManager.run_removeSelf (removeSelf c) w).1)
    by (unfold reachable in *; by eapply rtc_r).
  assert (Hreach2 : reachable w2) by (unfold reachable in *; by etrans).
  assert (Hmono : (managedSoFar (CombatManager.run_removeSelf (removeSelf c) w).1
                   ≤ managedSoFar w2)%N).
  { clear -Hsteps. induction Hsteps as [|? ? ? Hs _ IH]; [lia|].
    pose proof (step_counter_mono _ _ Hs). lia. }
  pose proof (step_counter_mono _ _ Hstep1) as Hmono1.
  assert (Hw : consistent w) by (apply reachable_consistent; [done|lia]).
  pose proof (reachable_consistent _ Hreach2 Hsafe) as Hw2.
  destruct (cons_key _ Hw _ _ Hc) as ((n & Hn & ->) & _).
  assert (Hnone : combats w2 !! Js.toString n = None).
  { apply (steps_retired _ _ n Hsteps Hsafe Hreach1); [lia|].
    rewrite (removeSelf_registered (Js.toString n)) by done. cbn.
    apply lookup_delete_eq. }
  split_and!; [done| |exact (removed_callback_stays_noop _ _ _ _ Hreach Hc Hsteps Hsafe)].
  intros lobby_id. unfold LobbyService.getActiveCombats.
  destruct (managingCombats w2 !! lobby_id) as [ℓ|]; [|apply not_elem_of_nil].
  destruct (arrays w2 !! ℓ) as [l|] eqn:Hl; [|apply not_elem_of_nil].
  cbn. intros Hin. destruct (cons_listed _ Hw2 _ _ _ Hl Hin) as (c' & Hc' & _).
  congruence.
Qed.

End order_and_retirement.

(** ** Further scenarios *)

Section more_scenarios.
Import Scenario Realm CookPreset.

(** X1 at the combat of section 8. *)
Lemma lobby_index_matches_registry_witness :
  @reachable no_auth boss_fight ∧
  (managedSoFar boss_fight < Js.MAX_EXACT)%N ∧
  (∃ lobby_id, "0" ∈ LobbyService.getActiveCombats boss_fight lobby_id) ∧
  NoDup (LobbyService.getActiveCombats boss_fight "lobby1").
Proof.
  assert (Hreach : @reachable no_auth boss_fight)
    by (apply rtc_once; apply (@step_createCombat no_auth)).
  assert (Hsafe : (managedSoFar boss_fight < Js.MAX_EXACT)%N) by (vm_compute; reflexivity).
  destruct (@lobby_index_matches_registry no_auth boss_fight Hreach Hsafe)
    as (Hsame & _ & Hnodup).
  split_and!; [done|done| |apply Hnodup].
  apply Hsame. vm_compute. by eexists.
Defined.

(** X2: a second combat for "lobby1". *)
Lemma createCombat_appends_to_lobby_witness :
  @reachable no_auth boss_fight ∧
  (managedSoFar boss_fight < Js.MAX_EXACT)%N ∧
  second_fight.1 = Some "1" ∧
  LobbyService.getActiveCombats second_fight.2 "lobby1" = ["0"; "1"] ∧
  CombatManager.get second_fight.2 "0" = CombatManager.get boss_fight "0".
Proof.
  assert (Hreach : @reachable no_auth boss_fight)
    by (apply rtc_once; apply (@step_createCombat no_auth)).
  assert (Hsafe : (managedSoFar boss_fight < Js.MAX_EXACT)%N) by (vm_compute; reflexivity).
  destruct (@createCombat_appends_to_lobby no_auth "lobby1" "Second" seed "gm1" ["p1"]
              boss_fight Hreach Hsafe) as (Hid & _ & _ & Hother & Hlist & _).
  split_and!; [done|done|exact Hid|exact Hlist|].
  apply Hother. vm_compute. discriminate.
Defined.

(** X3: the second combat is created and ends. *)
Lemma create_then_end_restores_witness :
  @reachable no_auth boss_fight ∧
  (managedSoFar boss_fight < Js.MAX_EXACT)%N ∧
  combats (session_ends "1" second_fight.2) = combats boss_fight ∧
  LobbyService.getActiveCombats (session_ends "1" second_fight.2) "lobby1" = ["0"].
Proof.
  assert (Hreach : @reachable no_auth boss_fight)
    by (apply rtc_once; apply (@step_createCombat no_auth)).
  assert (Hsafe : (managedSoFar boss_fight < Js.MAX_EXACT)%N) by (vm_compute; reflexivity).
  destruct (@create_then_end_restores no_auth "lobby1" "Second" seed "gm1" ["p1"]
              boss_fight Hreach Hsafe) as (Hcombats & Hlists).
  split_and!; [done|done|exact Hcombats|exact (Hlists "lobby1")].
Defined.

(** X4: the combat of section 8 ends. *)
Lemma only_own_callback_unregisters_witness :
  @reachable no_auth boss_fight ∧
  (managedSoFar boss_fight < Js.MAX_EXACT)%N ∧
  @step no_auth boss_fight after_fight ∧
  combats boss_fight !! "0" = Some boss_fight_session ∧
  combats after_fight !! "0" = None ∧
  after_fight
  = (CombatManager.run_removeSelf (removeSelf boss_fight_session) boss_fight).1.
Proof.
  assert (Hreach : @reachable no_auth boss_fight)
    by (apply rtc_once; apply (@step_createCombat no_auth)).
  assert (Hsafe : (managedSoFar boss_fight < Js.MAX_EXACT)%N) by (vm_compute; reflexivity).
  assert (Hc : combats boss_fight !! "0" = Some boss_fight_session)
    by (vm_compute; reflexivity).
  assert (Hstep : @step no_auth boss_fight after_fight)
    by (apply (@step_removeSelf no_auth "0"); exact Hc).
  assert (Hgone : combats after_fight !! "0" = None) by (vm_compute; reflexivity).
  split_and!; [done..|].
  exact (@only_own_callback_unregisters no_auth boss_fight after_fight "0"
           boss_fight_session Hreach Hsafe Hstep Hc Hgone).
Defined.

(** X19: after the combat of section 8 has ended and another was created. *)
Lemma retired_id_stays_retired_witness :
  @reachable no_auth boss_fight ∧
  combats boss_fight !! "0" = Some boss_fight_session ∧
  rtc (@step no_auth) after_fight next_fight ∧
  (managedSoFar next_fight < Js.MAX_EXACT)%N ∧
  CombatManager.get next_fight "0" = None ∧
  ("0" ∉ LobbyService.getActiveCombats next_fight "lobby1") ∧
  CombatManager.run_removeSelf (removeSelf boss_fight_session) next_fight
  = (next_fight, None).
Proof.
  assert (Hreach : @reachable no_auth boss_fight)
    by (apply rtc_once; apply (@step_createCombat no_auth)).
  assert (Hc : combats boss_fight !! "0" = Some boss_fight_session)
    by (vm_compute; reflexivity).
  assert (Hsteps : rtc (@step no_auth) after_fight next_fight)
    by (apply rtc_once; apply (@step_createCombat no_auth)).
  assert (Hsafe : (managedSoFar next_fight < Js.MAX_EXACT)%N) by (vm_compute; reflexivity).
  destruct (@retired_id_stays_retired no_auth boss_fight next_fight "0"
              boss_fight_session Hreach Hc Hsteps Hsafe) as (Hget & Hlists & Hnoop).
  split_and!; [done..|exact (Hlists "lobby1")|exact Hnoop].
Defined.

(** X8 on the stored burrow: the goblin stands on "__proto__". *)
Lemma cooked_preset_contents_witness :
  @cookPresetFromDB ObjectId_hex24 goblin_only Realm.storage burrow
  = Ok (Some burrow_seed) ∧
  Js.own (field_pawns burrow_seed) !! "__proto__" = None ∧
  Js.own (field_pawns burrow_seed) !! "B2" = Some (to_field_pawn orc_B2) ∧
  Js.proto (field_pawns burrow_seed) = Some (to_field_pawn goblin_proto) ∧
  Js.own (custom_entities burrow_seed) !! "goblin" = @getEntity goblin_only "goblin".
Proof.
  assert (Hcook : @cookPresetFromDB ObjectId_hex24 goblin_only Realm.storage burrow
                  = Ok (Some burrow_seed)) by (vm_compute; reflexivity).
  destruct (@cooked_preset_contents ObjectId_hex24 goblin_only Realm.storage burrow
              burrow_seed Hcook)
    as (presetFromDB & Hdb & Hown & Hproto & _ & Hentities & _).
  assert (Hfield : presetFromDB = {| field := [goblin_proto; orc_B2] |}).
  { vm_compute in Hdb. by injection Hdb as <-. }
  subst presetFromDB.
  assert (Hgoblin : Js.own (custom_entities burrow_seed) !! "goblin" = Some goblin)
    by (vm_compute; reflexivity).
  destruct (Hentities "goblin" goblin Hgoblin) as (_ & Hstored & _).
  split_and!; [done| | | |by rewrite Hstored].
  - rewrite (Hown "__proto__"). vm_compute. reflexivity.
  - rewrite (Hown "B2"). vm_compute. reflexivity.
  - rewrite Hproto. vm_compute. reflexivity.
Defined.

(** X9 on the request with the key "__proto__": the goblin's definition
    is carried although the seed has no square for the goblin. *)
Lemma cooked_request_contents_witness :
  @cookPresetFromRequest goblin_only proto_request = Ok proto_seed ∧
  Js.own (field_pawns proto_seed) = ∅ ∧
  Js.own (custom_entities proto_seed) !! "goblin" = @getEntity goblin_only "goblin" ∧
  ∃ square p, req_field proto_request !! square = Some p ∧
              req_source p = embedded ∧ path p = "goblin".
Proof.
  assert (Hcook : @cookPresetFromRequest goblin_only proto_request = Ok proto_seed)
    by (vm_compute; reflexivity).
  destruct (@cooked_request_contents goblin_only proto_request proto_seed Hcook)
    as (_ & Hentities & _).
  assert (Hgoblin : Js.own (custom_entities proto_seed) !! "goblin" = Some goblin)
    by (vm_compute; reflexivity).
  destruct (Hentities "goblin" goblin Hgoblin) as (_ & Hstored & Hpawn).
  split_and!; [done|done|by rewrite Hstored|done].
Defined.

(** X11: the burrow stored under a fresh identifier. *)
Lemma stored_preset_cooks_every_pawn_witness :
  ∃ db',
    DatabaseService.createNewCombatPreset [goblin_proto; orc_B2]
      "65a0000000000000000000aa" true Realm.storage
    = (Ok "65a0000000000000000000aa", db') ∧
    @new_ObjectId ObjectId_hex24 "65A0000000000000000000AA"
    = Some "65a0000000000000000000aa" ∧
    Forall (@CookFacts.resolves goblin_only) [goblin_proto; orc_B2] ∧
    ∃ seed,
      @cookPresetFromDB ObjectId_hex24 goblin_only db' "65A0000000000000000000AA"
      = Ok (Some seed) ∧
      Js.own (field_pawns seed) !! "B2" = Some (to_field_pawn orc_B2) ∧
      Js.proto (field_pawns seed) = Some (to_field_pawn goblin_proto) ∧
      size (Js.own (field_pawns seed)) = 1.
Proof.
  eexists.
  assert (Hstored : DatabaseService.createNewCombatPreset [goblin_proto; orc_B2]
                      "65a0000000000000000000aa" true Realm.storage
                    = (Ok "65a0000000000000000000aa",
                       DatabaseService.set_combat_presets
                         (insert "65a0000000000000000000aa"
                            {| field := [goblin_proto; orc_B2] |}) Realm.storage))
    by (vm_compute; reflexivity).
  assert (Hid : @new_ObjectId ObjectId_hex24 "65A0000000000000000000AA"
                = Some "65a0000000000000000000aa") by (vm_compute; reflexivity).
  assert (Hall : Forall (@CookFacts.resolves goblin_only) [goblin_proto; orc_B2]).
  { repeat constructor.
    - intros _. vm_compute. by eexists.
    - intros Hsrc. vm_compute in Hsrc. discriminate Hsrc. }
  destruct (@stored_preset_cooks_every_pawn ObjectId_hex24 goblin_only
              [goblin_proto; orc_B2] "65a0000000000000000000aa" true Realm.storage _
              "65A0000000000000000000AA" Hstored Hid Hall)
    as (_ & seed & Hcook & Hpawns & Hproto & Hsize).
  split_and!; [exact Hstored|exact Hid|exact Hall|].
  exists seed. split_and!; [exact Hcook| | |].
  - apply (Hpawns orc_B2); [|vm_compute; discriminate].
    apply elem_of_cons. right. apply elem_of_cons. by left.
  - apply (Hproto goblin_proto); [|reflexivity]. apply elem_of_cons. by left.
  - rewrite Hsize. vm_compute. reflexivity.
Defined.

(** X18: the camp and the camp listed in reverse. *)
Lemma stored_pawn_order_is_irrelevant_witness :
  @DatabaseService.getCombatPreset ObjectId_hex24 Realm.storage camp
  = Ok (Some {| field := [Realm.goblin_A1; orc_B2] |}) ∧
  @DatabaseService.getCombatPreset ObjectId_hex24 Realm.storage camp_reversed
  = Ok (Some {| field := [orc_B2; Realm.goblin_A1] |}) ∧
  @cookPresetFromDB ObjectId_hex24 goblin_only Realm.storage camp
  = @cookPresetFromDB ObjectId_hex24 goblin_only Realm.storage camp_reversed.
Proof.
  assert (Hdb : @DatabaseService.getCombatPreset ObjectId_hex24 Realm.storage camp
                = Ok (Some {| field := [Realm.goblin_A1; orc_B2] |}))
    by (vm_compute; reflexivity).
  assert (Hdb' : @DatabaseService.getCombatPreset ObjectId_hex24 Realm.storage
                   camp_reversed
                 = Ok (Some {| field := [orc_B2; Realm.goblin_A1] |}))
    by (vm_compute; reflexivity).
  assert (Hperm : [Realm.goblin_A1; orc_B2] ≡ₚ [orc_B2; Realm.goblin_A1])
    by apply perm_swap.
  assert (Hnd : NoDup (pawn_square <$> [Realm.goblin_A1; orc_B2])).
  { cbn. apply NoDup_cons. split; [|apply NoDup_singleton].
    intros Hin. apply list_elem_of_singleton in Hin. discriminate Hin. }
  split_and!; [done|done|].
  exact (@stored_pawn_order_is_irrelevant ObjectId_hex24 goblin_only Realm.storage
           Realm.storage camp camp_reversed _ _ Hdb Hdb' Hperm Hnd).
Defined.

(** X14: Bob is added to the hall twice. *)
Lemma addPlayerToLobby_twice_witness :
  ∃ db1 db2 lobby2,
    @DatabaseUpdates.addPlayerToLobby ObjectId_hex24 hall bob "Bob" Realm.storage
    = (Ok (), db1) ∧
    @DatabaseUpdates.addPlayerToLobby ObjectId_hex24 hall bob "Bobby" db1
    = (Ok (), db2) ∧
    @DatabaseService.getLobby ObjectId_hex24 db2 hall = Ok (Some lobby2) ∧
    lobby_players lobby2
    = [{| userId := ann; nickname := "Ann"; characterId := None |};
       {| userId := bob; nickname := "Bob"; characterId := None |};
       {| userId := bob; nickname := "Bobby"; characterId := None |}].
Proof.
  eexists.
  assert (Hlobby : @DatabaseService.getLobby ObjectId_hex24 Realm.storage hall
                   = Ok (Some {| lobby_name := "Hall"; lobby_gm_id := ann;
                                 lobby_players :=
                                   [{| userId := ann; nickname := "Ann";
                                       characterId := None |}];
                                 relatedPresets := [] |}))
    by (vm_compute; reflexivity).
  assert (Hadd : @DatabaseUpdates.addPlayerToLobby ObjectId_hex24 hall bob "Bob"
                   Realm.storage
                 = (Ok (), (@DatabaseUpdates.addPlayerToLobby ObjectId_hex24 hall bob
                              "Bob" Realm.storage).2))
    by (vm_compute; reflexivity).
  destruct (@addPlayerToLobby_twice ObjectId_hex24
              hall bob "Bob" "Bobby" Realm.storage _ _ Hlobby Hadd)
    as (db2 & lobby2 & Hagain & Hlobby2 & Hroster).
  exists db2, lobby2. split_and!; [exact Hadd|exact Hagain|exact Hlobby2|exact Hroster].
Defined.

(** X15: the crypt lists a player whose user id is not an ObjectId; Bob's
    id names no lobby; the hall lists Ann only. *)
Lemma getLobbyInfo_fails_only_on_malformed_id_witness :
  @LobbyViews.getLobbyInfo ObjectId_hex24 goblin_only initial Realm.storage crypt ann None
  = Throw BSONError ∧
  @LobbyViews.getLobbyInfo ObjectId_hex24 goblin_only initial Realm.storage bob ann None
  = Ok {| li_name := "Lobby not found"; li_lobbyId := bob; li_combats := [];
          li_gm := ""; li_players := []; li_layout := "default";
          li_controlledEntity := None |} ∧
  ∃ info, @LobbyViews.getLobbyInfo ObjectId_hex24 goblin_only initial Realm.storage
            hall bob (Some "wraith") = Ok info.
Proof.
  split_and!.
  - assert (Hthrow : ∃ e, @LobbyViews.getLobbyInfo ObjectId_hex24 goblin_only initial
                            Realm.storage crypt ann None = Throw e)
      by (eexists; vm_compute; reflexivity).
    destruct Hthrow as [e He]. rewrite He. f_equal.
    destruct (@getLobbyInfo_fails_only_on_malformed_id ObjectId_hex24 goblin_only
                initial Realm.storage crypt ann None) as (Honly & _).
    exact (Honly e He).
  - destruct (@getLobbyInfo_fails_only_on_malformed_id ObjectId_hex24 goblin_only
                initial Realm.storage bob ann None) as (_ & Habsent & _).
    apply Habsent. vm_compute. reflexivity.
  - destruct (@getLobbyInfo_fails_only_on_malformed_id ObjectId_hex24 goblin_only
                initial Realm.storage hall bob (Some "wraith")) as (_ & _ & Hstored).
    eapply Hstored; [vm_compute; reflexivity|]. split.
    + eexists. vm_compute. reflexivity.
    + constructor; [|constructor]. vm_compute. by eexists.
Defined.

(** X16: Ann, who runs the hall, looks at it with the goblin as her main
    character. *)
Lemma getLobbyInfo_answer_witness :
  ∃ info,
    @LobbyViews.getLobbyInfo ObjectId_hex24 goblin_only initial Realm.storage hall ann
      (Some "goblin") = Ok info ∧
    li_name info = "Hall" ∧ li_layout info = "gm" ∧
    li_controlledEntity info = Some {| ce_name := "goblin"; ce_id := "goblin" |} ∧
    length (li_players info) = 1.
Proof.
  assert (Hlobby : @DatabaseService.getLobby ObjectId_hex24 Realm.storage hall
                   = Ok (Some {| lobby_name := "Hall"; lobby_gm_id := ann;
                                 lobby_players :=
                                   [{| userId := ann; nickname := "Ann";
                                       characterId := None |}];
                                 relatedPresets := [] |}))
    by (vm_compute; reflexivity).
  assert (Hok : ∃ info, @LobbyViews.getLobbyInfo ObjectId_hex24 goblin_only initial
                          Realm.storage hall ann (Some "goblin") = Ok info)
    by (eexists; vm_compute; reflexivity).
  destruct Hok as [info Hinfo]. exists info.
  destruct (@getLobbyInfo_answer ObjectId_hex24 goblin_only initial Realm.storage hall
              ann (Some "goblin") _ info Hlobby Hinfo)
    as (Hname & _ & _ & Hlayout & _ & Hplayers & Hentity).
  split_and!; [exact Hinfo|exact Hname|exact Hlayout|exact Hentity|].
  by apply Forall2_length in Hplayers.
Defined.

(** X17: Bob is added to the hall and asks for his character. *)
Lemma added_player_has_no_character_witness :
  ∃ db',
    @DatabaseUpdates.addPlayerToLobby ObjectId_hex24 hall bob "Bob" Realm.storage
    = (Ok (), db') ∧
    @LobbyViews.getMyCharacterInfo ObjectId_hex24 string character_descriptor db' hall bob
    = Throw (BadRequest "Player has no character").
Proof.
  eexists.
  assert (Hlobby : @DatabaseService.getLobby ObjectId_hex24 Realm.storage hall
                   = Ok (Some {| lobby_name := "Hall"; lobby_gm_id := ann;
                                 lobby_players :=
                                   [{| userId := ann; nickname := "Ann";
                                       characterId := None |}];
                                 relatedPresets := [] |}))
    by (vm_compute; reflexivity).
  assert (Hadd : @DatabaseUpdates.addPlayerToLobby ObjectId_hex24 hall bob "Bob"
                   Realm.storage
                 = (Ok (), (@DatabaseUpdates.addPlayerToLobby ObjectId_hex24 hall bob
                              "Bob" Realm.storage).2))
    by (vm_compute; reflexivity).
  assert (Hnew : ∀ p, p ∈ [{| userId := ann; nickname := "Ann"; characterId := None |}]
                      → userId p ≠ bob).
  { intros p Hp. apply list_elem_of_singleton in Hp. subst p. vm_compute. discriminate. }
  split; [exact Hadd|].
  exact (@added_player_has_no_character ObjectId_hex24 string character_descriptor
           hall bob "Bob" Realm.storage _ _ Hlobby Hnew Hadd).
Defined.

End more_scenarios.
